(** * Cosmic Defender: the game engine (components/GameEngine.ts)

    A shallow embedding of the [GameEngine] class: the entity store, the
    per-tick update pipeline, the collision resolver, the spawner and
    [reset].  Rendering and audio are left out: they read the store and
    never write it.

    Numbers.  Positions, velocities, sizes, timers, cooldowns and durations
    are JavaScript numbers that take fractional values (timestamps, products
    with [deltaTime / 1000]); they are modelled as exact rationals [Q], and
    equalities between computed values are stated with [==].  Score, lives,
    level, health, damage and points only ever hold integers (they are
    initialised with integer constants and changed by [+=], [-=] and [--] of
    integers); they are modelled as [Z].

    Effects.  The engine is one mutable object; here it is a record threaded
    through every method.  The five callbacks are modelled as a log
    ([calls]) to which each invocation is appended, in order.  [Math.random]
    is an oracle [Math_random : nat -> Q] indexed by the number of calls made
    so far ([randomCalls]); [Math.sin] is a parameter.

    Objects.  Entities are mutated in place in the source, while they sit in
    the arrays; no two arrays share an entity and no [Vector2D] that is
    mutated is shared ([createParticles] copies the position it is given, the
    projectiles of a multi-shot share only their never-mutated [size]), so a
    loop over an array is modelled as rebuilding the list element by
    element. *)

From Stdlib Require Import String QArith Qminmax Qround ZArith List Bool Lia Lqa.
Import ListNotations.
Open Scope Q_scope.

(** ** Data model *)

Record Vector2D := mkVector2D { x : Q; y : Q }.

Record GameObject := mkGameObject {
  position : Vector2D;
  velocity : Vector2D;
  size : Vector2D;
  active : bool
}.

Inductive EnemyType := basic | fast | heavy.
Inductive Owner := owner_player | owner_enemy.
Inductive PowerUpType := rapidFire | shield | multiShot.

(** [Map<string, number>] of the player: the keys are only ever the three
    power-up kinds.  A JavaScript [Map] iterates in insertion order, and
    [onPowerUpChange] receives its entries in that order, so it is an
    association list with at most one entry per key. *)
Definition PowerUpMap := list (PowerUpType * Q).

Record Player := mkPlayer {
  player_object :> GameObject;
  player_health : Z;
  player_shootCooldown : Q;
  player_powerUps : PowerUpMap
}.

Record Enemy := mkEnemy {
  enemy_object :> GameObject;
  enemy_type : EnemyType;
  enemy_health : Z;
  enemy_points : Z;
  enemy_shootCooldown : Q
}.

Record Projectile := mkProjectile {
  projectile_object :> GameObject;
  damage : Z;
  owner : Owner
}.

Record PowerUp := mkPowerUp {
  powerUp_object :> GameObject;
  powerUp_type : PowerUpType;
  duration : Q
}.

Record Particle := mkParticle {
  particle_object :> GameObject;
  life : Q;
  maxLife : Q;
  color : string
}.

(** The part of [HTMLCanvasElement] the engine reads. *)
Record Canvas := mkCanvas { width : Q; height : Q }.

Record Input := mkInput { input_left : bool; input_right : bool; input_shoot : bool }.

Inductive Action := act_left | act_right | act_shoot.

(** One invocation of a member of [GameCallbacks]. *)
Inductive Callback :=
| onScoreChange (score : Z)
| onLivesChange (lives : Z)
| onLevelChange (level : Z)
| onPowerUpChange (powerUps : list (PowerUpType * Q))
| onGameOver.

Record GameEngine := mkGameEngine {
  canvas : Canvas;
  lastTime : Q;
  frameCount : Z;
  score : Z;
  lives : Z;
  level : Z;
  gameSpeed : Q;
  input : Input;
  player : Player;
  enemies : list Enemy;
  projectiles : list Projectile;
  powerUps : list PowerUp;
  particles : list Particle;
  enemySpawnTimer : Q;
  powerUpSpawnTimer : Q;
  randomCalls : nat;        (* calls of Math.random made so far *)
  calls : list Callback     (* callback invocations so far, oldest first *)
}.

Definition PLAYER_SPEED : Q := 300.
Definition PROJECTILE_SPEED : Q := 400.
Definition ENEMY_SPAWN_RATE : Q := 2000.
Definition POWERUP_SPAWN_RATE : Q := 15000.

(** ** Comparisons of numbers *)

Definition Qltb (a b : Q) : bool := negb (Qle_bool b a).

Lemma Qltb_lt a b : Qltb a b = true <-> a < b.
Proof.
  unfold Qltb. rewrite negb_true_iff. split; intro H.
  - apply Qnot_le_lt. intro H'. apply Qle_bool_iff in H'. congruence.
  - destruct (Qle_bool b a) eqn:E; trivial.
    apply Qle_bool_iff in E. exfalso. exact (Qlt_not_le _ _ H E).
Qed.

Lemma Qltb_ge a b : Qltb a b = false <-> b <= a.
Proof.
  unfold Qltb. rewrite negb_false_iff. apply Qle_bool_iff.
Qed.

(** ** Field updates *)

Definition set_position (v : Vector2D) (o : GameObject) : GameObject :=
  mkGameObject v (velocity o) (size o) (active o).
Definition set_velocity (v : Vector2D) (o : GameObject) : GameObject :=
  mkGameObject (position o) v (size o) (active o).
Definition set_active (b : bool) (o : GameObject) : GameObject :=
  mkGameObject (position o) (velocity o) (size o) b.

Definition player_with (f : GameObject -> GameObject) (p : Player) : Player :=
  mkPlayer (f p) (player_health p) (player_shootCooldown p) (player_powerUps p).
Definition player_set_health (h : Z) (p : Player) : Player :=
  mkPlayer p h (player_shootCooldown p) (player_powerUps p).
Definition player_set_shootCooldown (c : Q) (p : Player) : Player :=
  mkPlayer p (player_health p) c (player_powerUps p).
Definition player_set_powerUps (m : PowerUpMap) (p : Player) : Player :=
  mkPlayer p (player_health p) (player_shootCooldown p) m.

Definition enemy_with (f : GameObject -> GameObject) (e : Enemy) : Enemy :=
  mkEnemy (f e) (enemy_type e) (enemy_health e) (enemy_points e) (enemy_shootCooldown e).
Definition enemy_set_health (h : Z) (e : Enemy) : Enemy :=
  mkEnemy e (enemy_type e) h (enemy_points e) (enemy_shootCooldown e).
Definition enemy_set_shootCooldown (c : Q) (e : Enemy) : Enemy :=
  mkEnemy e (enemy_type e) (enemy_health e) (enemy_points e) c.

Definition projectile_with (f : GameObject -> GameObject) (p : Projectile) : Projectile :=
  mkProjectile (f p) (damage p) (owner p).

Definition powerUp_with (f : GameObject -> GameObject) (p : PowerUp) : PowerUp :=
  mkPowerUp (f p) (powerUp_type p) (duration p).
Definition powerUp_set_duration (d : Q) (p : PowerUp) : PowerUp :=
  mkPowerUp p (powerUp_type p) d.

Definition particle_with (f : GameObject -> GameObject) (p : Particle) : Particle :=
  mkParticle (f p) (life p) (maxLife p) (color p).
Definition particle_set_life (l : Q) (p : Particle) : Particle :=
  mkParticle p l (maxLife p) (color p).

Definition set_lastTime (v : Q) (g : GameEngine) : GameEngine :=
  mkGameEngine (canvas g) v (frameCount g) (score g) (lives g) (level g) (gameSpeed g)
    (input g) (player g) (enemies g) (projectiles g) (powerUps g) (particles g)
    (enemySpawnTimer g) (powerUpSpawnTimer g) (randomCalls g) (calls g).
Definition set_frameCount (v : Z) (g : GameEngine) : GameEngine :=
  mkGameEngine (canvas g) (lastTime g) v (score g) (lives g) (level g) (gameSpeed g)
    (input g) (player g) (enemies g) (projectiles g) (powerUps g) (particles g)
    (enemySpawnTimer g) (powerUpSpawnTimer g) (randomCalls g) (calls g).
Definition set_score (v : Z) (g : GameEngine) : GameEngine :=
  mkGameEngine (canvas g) (lastTime g) (frameCount g) v (lives g) (level g) (gameSpeed g)
    (input g) (player g) (enemies g) (projectiles g) (powerUps g) (particles g)
    (enemySpawnTimer g) (powerUpSpawnTimer g) (randomCalls g) (calls g).
Definition set_lives (v : Z) (g : GameEngine) : GameEngine :=
  mkGameEngine (canvas g) (lastTime g) (frameCount g) (score g) v (level g) (gameSpeed g)
    (input g) (player g) (enemies g) (projectiles g) (powerUps g) (particles g)
    (enemySpawnTimer g) (powerUpSpawnTimer g) (randomCalls g) (calls g).
Definition set_level (v : Z) (g : GameEngine) : GameEngine :=
  mkGameEngine (canvas g) (lastTime g) (frameCount g) (score g) (lives g) v (gameSpeed g)
    (input g) (player g) (enemies g) (projectiles g) (powerUps g) (particles g)
    (enemySpawnTimer g) (powerUpSpawnTimer g) (randomCalls g) (calls g).
Definition set_gameSpeed (v : Q) (g : GameEngine) : GameEngine :=
  mkGameEngine (canvas g) (lastTime g) (frameCount g) (score g) (lives g) (level g) v
    (input g) (player g) (enemies g) (projectiles g) (powerUps g) (particles g)
    (enemySpawnTimer g) (powerUpSpawnTimer g) (randomCalls g) (calls g).
Definition set_input (v : Input) (g : GameEngine) : GameEngine :=
  mkGameEngine (canvas g) (lastTime g) (frameCount g) (score g) (lives g) (level g) (gameSpeed g)
    v (player g) (enemies g) (projectiles g) (powerUps g) (particles g)
    (enemySpawnTimer g) (powerUpSpawnTimer g) (randomCalls g) (calls g).
Definition set_player (v : Player) (g : GameEngine) : GameEngine :=
  mkGameEngine (canvas g) (lastTime g) (frameCount g) (score g) (lives g) (level g) (gameSpeed g)
    (input g) v (enemies g) (projectiles g) (powerUps g) (particles g)
    (enemySpawnTimer g) (powerUpSpawnTimer g) (randomCalls g) (calls g).
Definition set_enemies (v : list Enemy) (g : GameEngine) : GameEngine :=
  mkGameEngine (canvas g) (lastTime g) (frameCount g) (score g) (lives g) (level g) (gameSpeed g)
    (input g) (player g) v (projectiles g) (powerUps g) (particles g)
    (enemySpawnTimer g) (powerUpSpawnTimer g) (randomCalls g) (calls g).
Definition set_projectiles (v : list Projectile) (g : GameEngine) : GameEngine :=
  mkGameEngine (canvas g) (lastTime g) (frameCount g) (score g) (lives g) (level g) (gameSpeed g)
    (input g) (player g) (enemies g) v (powerUps g) (particles g)
    (enemySpawnTimer g) (powerUpSpawnTimer g) (randomCalls g) (calls g).
Definition set_powerUps (v : list PowerUp) (g : GameEngine) : GameEngine :=
  mkGameEngine (canvas g) (lastTime g) (frameCount g) (score g) (lives g) (level g) (gameSpeed g)
    (input g) (player g) (enemies g) (projectiles g) v (particles g)
    (enemySpawnTimer g) (powerUpSpawnTimer g) (randomCalls g) (calls g).
Definition set_particles (v : list Particle) (g : GameEngine) : GameEngine :=
  mkGameEngine (canvas g) (lastTime g) (frameCount g) (score g) (lives g) (level g) (gameSpeed g)
    (input g) (player g) (enemies g) (projectiles g) (powerUps g) v
    (enemySpawnTimer g) (powerUpSpawnTimer g) (randomCalls g) (calls g).
Definition set_enemySpawnTimer (v : Q) (g : GameEngine) : GameEngine :=
  mkGameEngine (canvas g) (lastTime g) (frameCount g) (score g) (lives g) (level g) (gameSpeed g)
    (input g) (player g) (enemies g) (projectiles g) (powerUps g) (particles g)
    v (powerUpSpawnTimer g) (randomCalls g) (calls g).
Definition set_powerUpSpawnTimer (v : Q) (g : GameEngine) : GameEngine :=
  mkGameEngine (canvas g) (lastTime g) (frameCount g) (score g) (lives g) (level g) (gameSpeed g)
    (input g) (player g) (enemies g) (projectiles g) (powerUps g) (particles g)
    (enemySpawnTimer g) v (randomCalls g) (calls g).
Definition set_randomCalls (v : nat) (g : GameEngine) : GameEngine :=
  mkGameEngine (canvas g) (lastTime g) (frameCount g) (score g) (lives g) (level g) (gameSpeed g)
    (input g) (player g) (enemies g) (projectiles g) (powerUps g) (particles g)
    (enemySpawnTimer g) (powerUpSpawnTimer g) v (calls g).
Definition set_calls (v : list Callback) (g : GameEngine) : GameEngine :=
  mkGameEngine (canvas g) (lastTime g) (frameCount g) (score g) (lives g) (level g) (gameSpeed g)
    (input g) (player g) (enemies g) (projectiles g) (powerUps g) (particles g)
    (enemySpawnTimer g) (powerUpSpawnTimer g) (randomCalls g) v.

(** [this.callbacks.f(...)]: the invocation is appended to the log. *)
Definition invoke (c : Callback) (g : GameEngine) : GameEngine :=
  set_calls (calls g ++ [c]) g.

(** ** The power-up map of the player *)

Definition PowerUpType_eqb (a b : PowerUpType) : bool :=
  match a, b with
  | rapidFire, rapidFire | shield, shield | multiShot, multiShot => true
  | _, _ => false
  end.


Fixpoint Map_get (k : PowerUpType) (m : PowerUpMap) : option Q :=
  match m with
  | [] => None
  | (k', v) :: m' => if PowerUpType_eqb k k' then Some v else Map_get k m'
  end.

Definition Map_has (k : PowerUpType) (m : PowerUpMap) : bool :=
  match Map_get k m with Some _ => true | None => false end.

(** [set] keeps the place of a key that is present and appends a new one. *)
Fixpoint Map_set (k : PowerUpType) (v : Q) (m : PowerUpMap) : PowerUpMap :=
  match m with
  | [] => [(k, v)]
  | (k', v') :: m' =>
      if PowerUpType_eqb k k' then (k, v) :: m' else (k', v') :: Map_set k v m'
  end.

Fixpoint Map_delete (k : PowerUpType) (m : PowerUpMap) : PowerUpMap :=
  match m with
  | [] => []
  | (k', v') :: m' =>
      if PowerUpType_eqb k k' then Map_delete k m' else (k', v') :: Map_delete k m'
  end.

Definition Map_entries (m : PowerUpMap) : list (PowerUpType * Q) := m.

Definition Owner_eqb (a b : Owner) : bool :=
  match a, b with
  | owner_player, owner_player | owner_enemy, owner_enemy => true
  | _, _ => false
  end.

(** ** Loops

    [for (const a of array) body]: the body may change the element it is
    handed and the rest of the state [St], but never the array it iterates
    over (no method of the engine pushes to or reassigns an array inside a
    loop over that same array). *)
Fixpoint forEach {A St : Type} (body : A -> St -> A * St) (l : list A) (s : St)
  : list A * St :=
  match l with
  | [] => ([], s)
  | a :: l' =>
      let (a', s1) := body a s in
      let (l'', s2) := forEach body l' s1 in
      (a' :: l'', s2)
  end.

(** ** checkCollision *)

Definition checkCollision (obj1 obj2 : GameObject) : bool :=
  Qltb (x (position obj1)) (x (position obj2) + x (size obj2)) &&
  Qltb (x (position obj2)) (x (position obj1) + x (size obj1)) &&
  Qltb (y (position obj1)) (y (position obj2) + y (size obj2)) &&
  Qltb (y (position obj2)) (y (position obj1) + y (size obj1)).

(** ** The engine *)

Section Engine.

(** [Math.random]: the value returned by the [n]-th call (from 0). *)
Variable Math_random : nat -> Q.
(** [Math.sin]. *)
Variable Math_sin : Q -> Q.

Definition random (g : GameEngine) : Q * GameEngine :=
  (Math_random (randomCalls g), set_randomCalls (S (randomCalls g)) g).

(** The constructor; the class fields take their initialisers, both spawn
    timers start at 0. *)
Definition construct (cv : Canvas) : GameEngine :=
  mkGameEngine cv 0 0%Z 0%Z 3%Z 1%Z 1 (mkInput false false false)
    (mkPlayer
       (mkGameObject (mkVector2D (width cv / 2) (height cv - 60))
                     (mkVector2D 0 0) (mkVector2D 30 30) true)
       100%Z 0 [])
    [] [] [] [] 0 0 O [].

Definition setPlayerInput (action : Action) (pressed : bool) (g : GameEngine) : GameEngine :=
  let i := input g in
  set_input
    match action with
    | act_left => mkInput pressed (input_right i) (input_shoot i)
    | act_right => mkInput (input_left i) pressed (input_shoot i)
    | act_shoot => mkInput (input_left i) (input_right i) pressed
    end g.

Definition playerShot (g : GameEngine) : Projectile :=
  mkProjectile
    (mkGameObject
       (mkVector2D (x (position (player g)))
                   (y (position (player g)) - y (size (player g)) / 2))
       (mkVector2D 0 (- PROJECTILE_SPEED))
       (mkVector2D 4 12)
       true)
    25%Z owner_player.

Definition createPlayerProjectile (g : GameEngine) : GameEngine :=
  let projectile := playerShot g in
  let g := set_projectiles (projectiles g ++ [projectile]) g in
  if Map_has multiShot (player_powerUps (player g)) then
    let leftProjectile :=
      projectile_with (fun o =>
        set_velocity (mkVector2D (-50) (- PROJECTILE_SPEED))
          (set_position (mkVector2D (x (position projectile) - 15) (y (position projectile))) o))
        projectile in
    let rightProjectile :=
      projectile_with (fun o =>
        set_velocity (mkVector2D 50 (- PROJECTILE_SPEED))
          (set_position (mkVector2D (x (position projectile) + 15) (y (position projectile))) o))
        projectile in
    set_projectiles (projectiles g ++ [leftProjectile; rightProjectile]) g
  else g.

Definition createEnemyProjectile (enemy : Enemy) (g : GameEngine) : GameEngine :=
  let projectile :=
    mkProjectile
      (mkGameObject
         (mkVector2D (x (position enemy)) (y (position enemy) + y (size enemy) / 2))
         (mkVector2D 0 (PROJECTILE_SPEED * 0.6))
         (mkVector2D 3 8)
         true)
      20%Z owner_enemy in
  set_projectiles (projectiles g ++ [projectile]) g.

(** [enemyTypes[Math.floor(Math.random() * enemyTypes.length)]].
    [Math.random] is in [0, 1), so the index is 0, 1 or 2.  An index outside
    the array would give [undefined], which the rest of [spawnEnemy] treats
    as it treats ['basic'] (it only compares the type with ['heavy'] and
    ['fast']). *)
Definition pickEnemyType (r : Q) : EnemyType :=
  match Qfloor (r * 3) with
  | 1%Z => fast
  | 2%Z => heavy
  | _ => basic
  end.

Definition pickPowerUpType (r : Q) : PowerUpType :=
  match Qfloor (r * 3) with
  | 1%Z => shield
  | 2%Z => multiShot
  | _ => rapidFire
  end.

Definition spawnEnemy (g : GameEngine) : GameEngine :=
  let (r0, g) := random g in
  let randomType := pickEnemyType r0 in
  let (r1, g) := random g in
  let (r2, g) := random g in
  let (r3, g) := random g in
  let enemy :=
    mkEnemy
      (mkGameObject
         (mkVector2D (r1 * (width (canvas g) - 40) + 20) (-30))
         (mkVector2D ((r2 - 0.5) * 50) 80)
         (mkVector2D 30 30)
         true)
      randomType
      (match randomType with heavy => 75 | fast => 25 | basic => 50 end)%Z
      (match randomType with heavy => 200 | fast => 150 | basic => 100 end)%Z
      (r3 * 2000) in
  let enemy :=
    match randomType with
    | fast =>
        enemy_with (fun o => mkGameObject (position o) (mkVector2D (x (velocity o)) 120)
                                          (mkVector2D 25 25) (active o)) enemy
    | heavy =>
        enemy_with (fun o => mkGameObject (position o) (mkVector2D (x (velocity o)) 50)
                                          (mkVector2D 40 40) (active o)) enemy
    | basic => enemy
    end in
  set_enemies (enemies g ++ [enemy]) g.

Definition spawnPowerUp (g : GameEngine) : GameEngine :=
  let (r0, g) := random g in
  let randomType := pickPowerUpType r0 in
  let (r1, g) := random g in
  let powerUp :=
    mkPowerUp
      (mkGameObject
         (mkVector2D (r1 * (width (canvas g) - 30) + 15) (-20))
         (mkVector2D 0 60)
         (mkVector2D 25 25)
         true)
      randomType
      8000 in
  set_powerUps (powerUps g ++ [powerUp]) g.

Fixpoint createParticles (pos : Vector2D) (col : string) (count : nat) (g : GameEngine)
  : GameEngine :=
  match count with
  | O => g
  | S count' =>
      let (r0, g) := random g in
      let (r1, g) := random g in
      let (r2, g) := random g in
      let particle :=
        mkParticle
          (mkGameObject
             (mkVector2D (x pos) (y pos))
             (mkVector2D ((r0 - 0.5) * 200) ((r1 - 0.5) * 200))
             (mkVector2D 3 3)
             true)
          (500 + r2 * 500) 1000 col in
      createParticles pos col count' (set_particles (particles g ++ [particle]) g)
  end.

(** *** update: the sub-updates *)

(** The loop over [this.player.powerUps.entries()].  Deleting the entry being
    visited and setting a key that is present do not disturb the iteration
    of a [Map], so the loop visits the entries the map had when it started. *)
Definition tickPowerUp (deltaTime : Q) (m : PowerUpMap) (entry : PowerUpType * Q)
  : PowerUpMap :=
  let (powerUpType, timeLeft) := entry in
  let newTimeLeft := timeLeft - deltaTime in
  if Qle_bool newTimeLeft 0 then Map_delete powerUpType m
  else Map_set powerUpType newTimeLeft m.

Definition updatePlayer (deltaTime : Q) (g : GameEngine) : GameEngine :=
  let dt := deltaTime / 1000 in
  (* Handle movement *)
  let vx := 0 in
  let vx := if input_left (input g) then - PLAYER_SPEED else vx in
  let vx := if input_right (input g) then PLAYER_SPEED else vx in
  let p := player g in
  let p := player_with (set_velocity (mkVector2D vx (y (velocity p)))) p in
  (* Update position *)
  let px := x (position p) + x (velocity p) * dt in
  (* Constrain to screen bounds *)
  let px := Qmax (x (size p) / 2) (Qmin (width (canvas g) - x (size p) / 2) px) in
  let p := player_with (set_position (mkVector2D px (y (position p)))) p in
  (* Handle shooting *)
  let p := player_set_shootCooldown (Qmax 0 (player_shootCooldown p - deltaTime)) p in
  let g := set_player p g in
  let g :=
    if input_shoot (input g) && Qle_bool (player_shootCooldown (player g)) 0 then
      let g := createPlayerProjectile g in
      let rapidFireActive := Map_has rapidFire (player_powerUps (player g)) in
      set_player
        (player_set_shootCooldown (if rapidFireActive then 100 else 250) (player g)) g
    else g in
  (* Update power-ups *)
  let m := player_powerUps (player g) in
  let m := fold_left (tickPowerUp deltaTime) (Map_entries m) m in
  let g := set_player (player_set_powerUps m (player g)) g in
  (* Update power-up callback *)
  let activePowerUps :=
    map (fun e : PowerUpType * Q => (fst e, snd e / 1000)) (Map_entries m) in
  invoke (onPowerUpChange activePowerUps) g.

(** The body of the loop of [updateEnemies]. *)
Definition updateEnemy (deltaTime : Q) (enemy : Enemy) (g : GameEngine) : Enemy * GameEngine :=
  let dt := deltaTime / 1000 in
  if negb (active enemy) then (enemy, g) else
  (* Update position *)
  let enemy :=
    enemy_with (set_position
      (mkVector2D (x (position enemy) + x (velocity enemy) * dt * gameSpeed g)
                  (y (position enemy) + y (velocity enemy) * dt * gameSpeed g))) enemy in
  (* Remove enemies that go off screen *)
  let enemy :=
    if Qltb (height (canvas g) + 50) (y (position enemy))
    then enemy_with (set_active false) enemy else enemy in
  (* Enemy shooting *)
  let enemy :=
    enemy_set_shootCooldown (Qmax 0 (enemy_shootCooldown enemy - deltaTime)) enemy in
  if Qle_bool (enemy_shootCooldown enemy) 0 then
    let (r, g) := random g in
    if Qltb r 0.005 then
      let g := createEnemyProjectile enemy g in
      let (r', g) := random g in
      (enemy_set_shootCooldown (1000 + r' * 2000) enemy, g)
    else (enemy, g)
  else (enemy, g).

Definition updateEnemies (deltaTime : Q) (g : GameEngine) : GameEngine :=
  let (es, g) := forEach (updateEnemy deltaTime) (enemies g) g in
  set_enemies es g.

Definition updateProjectile (deltaTime : Q) (cv : Canvas) (projectile : Projectile)
  : Projectile :=
  let dt := deltaTime / 1000 in
  if negb (active projectile) then projectile else
  let projectile :=
    projectile_with (set_position
      (mkVector2D (x (position projectile) + x (velocity projectile) * dt)
                  (y (position projectile) + y (velocity projectile) * dt))) projectile in
  if Qltb (y (position projectile)) (-10)
     || Qltb (height cv + 10) (y (position projectile))
     || Qltb (x (position projectile)) (-10)
     || Qltb (width cv + 10) (x (position projectile))
  then projectile_with (set_active false) projectile
  else projectile.

Definition updateProjectiles (deltaTime : Q) (g : GameEngine) : GameEngine :=
  set_projectiles (map (updateProjectile deltaTime (canvas g)) (projectiles g)) g.

Definition updatePowerUp (deltaTime : Q) (frames : Z) (powerUp : PowerUp) : PowerUp :=
  if negb (active powerUp) then powerUp else
  (* Floating animation *)
  let powerUp :=
    powerUp_with (set_position
      (mkVector2D (x (position powerUp))
                  (y (position powerUp) + Math_sin (inject_Z frames * 0.1) * 0.5))) powerUp in
  let powerUp := powerUp_set_duration (duration powerUp - deltaTime) powerUp in
  (* Remove expired power-ups *)
  if Qle_bool (duration powerUp) 0
  then powerUp_with (set_active false) powerUp
  else powerUp.

Definition updatePowerUps (deltaTime : Q) (g : GameEngine) : GameEngine :=
  set_powerUps (map (updatePowerUp deltaTime (frameCount g)) (powerUps g)) g.

Definition updateParticle (deltaTime : Q) (particle : Particle) : Particle :=
  let dt := deltaTime / 1000 in
  if negb (active particle) then particle else
  let particle :=
    particle_with (set_position
      (mkVector2D (x (position particle) + x (velocity particle) * dt)
                  (y (position particle) + y (velocity particle) * dt))) particle in
  let particle := particle_set_life (life particle - deltaTime) particle in
  if Qle_bool (life particle) 0
  then particle_with (set_active false) particle
  else particle.

Definition updateParticles (deltaTime : Q) (g : GameEngine) : GameEngine :=
  set_particles (map (updateParticle deltaTime) (particles g)) g.

Definition updateSpawning (deltaTime : Q) (g : GameEngine) : GameEngine :=
  (* Enemy spawning *)
  let g := set_enemySpawnTimer (enemySpawnTimer g - deltaTime) g in
  let g :=
    if Qle_bool (enemySpawnTimer g) 0 then
      let g := spawnEnemy g in
      set_enemySpawnTimer (ENEMY_SPAWN_RATE / gameSpeed g) g
    else g in
  (* Power-up spawning *)
  let g := set_powerUpSpawnTimer (powerUpSpawnTimer g - deltaTime) g in
  if Qle_bool (powerUpSpawnTimer g) 0 then
    let g := spawnPowerUp g in
    set_powerUpSpawnTimer POWERUP_SPAWN_RATE g
  else g.

(** *** handleCollisions *)

(** Player projectiles vs enemies: the body of the inner loop, for one enemy.
    The state of the inner loop is the projectile of the outer loop and the
    engine. *)
Definition hitEnemy (enemy : Enemy) (s : Projectile * GameEngine)
  : Enemy * (Projectile * GameEngine) :=
  let (projectile, g) := s in
  if negb (active enemy) then (enemy, s) else
  if checkCollision projectile enemy then
    let projectile := projectile_with (set_active false) projectile in
    let enemy := enemy_set_health (enemy_health enemy - damage projectile)%Z enemy in
    (* Create hit particles *)
    let g := createParticles (position enemy) "#ff6b6b" 5 g in
    if (enemy_health enemy <=? 0)%Z then
      let enemy := enemy_with (set_active false) enemy in
      let g := set_score (score g + enemy_points enemy)%Z g in
      let g := invoke (onScoreChange (score g)) g in
      (* Create destruction particles *)
      let g := createParticles (position enemy) "#ffd93d" 10 g in
      (enemy, (projectile, g))
    else (enemy, (projectile, g))
  else (enemy, s).

(** The body of the outer loop, for one projectile: the inner loop runs over
    all of [this.enemies] and is not left when the projectile has hit. *)
Definition projectileVsEnemies (projectile : Projectile) (g : GameEngine)
  : Projectile * GameEngine :=
  if negb (active projectile) || negb (Owner_eqb (owner projectile) owner_player)
  then (projectile, g)
  else
    let '(es, (projectile, g)) := forEach hitEnemy (enemies g) (projectile, g) in
    (projectile, set_enemies es g).

(** [this.lives--] with its callback, particles and game-over test; [count]
    is 8 for a projectile hit and 12 for a body hit. *)
Definition loseLife (col : string) (count : nat) (g : GameEngine) : GameEngine :=
  let g := set_lives (lives g - 1)%Z g in
  let g := invoke (onLivesChange (lives g)) g in
  let g := createParticles (position (player g)) col count g in
  if (lives g <=? 0)%Z then invoke onGameOver g else g.

(** Enemy projectiles vs player: the body of the loop. *)
Definition projectileVsPlayer (projectile : Projectile) (g : GameEngine)
  : Projectile * GameEngine :=
  if negb (active projectile) || negb (Owner_eqb (owner projectile) owner_enemy)
  then (projectile, g)
  else if checkCollision projectile (player g) then
    let projectile := projectile_with (set_active false) projectile in
    (* Check for shield power-up *)
    if negb (Map_has shield (player_powerUps (player g)))
    then (projectile, loseLife "#ff4757" 8 g)
    else (projectile, g)
  else (projectile, g).

(** Player vs enemies (collision damage): the body of the loop. *)
Definition playerVsEnemy (enemy : Enemy) (g : GameEngine) : Enemy * GameEngine :=
  if negb (active enemy) then (enemy, g)
  else if checkCollision (player g) enemy then
    let enemy := enemy_with (set_active false) enemy in
    if negb (Map_has shield (player_powerUps (player g)))
    then (enemy, loseLife "#ff6b6b" 12 g)
    else (enemy, g)
  else (enemy, g).

(** Player vs power-ups: the body of the loop. *)
Definition playerVsPowerUp (powerUp : PowerUp) (g : GameEngine) : PowerUp * GameEngine :=
  if negb (active powerUp) then (powerUp, g)
  else if checkCollision (player g) powerUp then
    let powerUp := powerUp_with (set_active false) powerUp in
    let g :=
      set_player
        (player_set_powerUps
           (Map_set (powerUp_type powerUp) (duration powerUp) (player_powerUps (player g)))
           (player g)) g in
    (* Create collection particles *)
    (powerUp, createParticles (position powerUp) "#6c5ce7" 8 g)
  else (powerUp, g).

Definition collidePlayerProjectiles (g : GameEngine) : GameEngine :=
  let (ps, g) := forEach projectileVsEnemies (projectiles g) g in
  set_projectiles ps g.

Definition collideEnemyProjectiles (g : GameEngine) : GameEngine :=
  let (ps, g) := forEach projectileVsPlayer (projectiles g) g in
  set_projectiles ps g.

Definition collideEnemies (g : GameEngine) : GameEngine :=
  let (es, g) := forEach playerVsEnemy (enemies g) g in
  set_enemies es g.

Definition collidePowerUps (g : GameEngine) : GameEngine :=
  let (us, g) := forEach playerVsPowerUp (powerUps g) g in
  set_powerUps us g.

Definition handleCollisions (g : GameEngine) : GameEngine :=
  collidePowerUps (collideEnemies (collideEnemyProjectiles (collidePlayerProjectiles g))).

(** *** updateGameState, cleanup, update, reset *)

(** [Math.floor(this.score / 1000) + 1]: the score is an integer and
    [Z.div] rounds down. *)
Definition updateGameState (g : GameEngine) : GameEngine :=
  let newLevel := (score g / 1000 + 1)%Z in
  if negb (newLevel =? level g)%Z then
    let g := set_level newLevel g in
    let g := set_gameSpeed (1 + inject_Z (level g - 1) * 0.2) g in
    invoke (onLevelChange (level g)) g
  else g.

Definition cleanup (g : GameEngine) : GameEngine :=
  let g := set_enemies (filter (fun e : Enemy => active e) (enemies g)) g in
  let g := set_projectiles (filter (fun p : Projectile => active p) (projectiles g)) g in
  let g := set_powerUps (filter (fun p : PowerUp => active p) (powerUps g)) g in
  set_particles (filter (fun p : Particle => active p) (particles g)) g.

(** The sub-updates of one tick that come before collision resolution. *)
Definition updateObjects (deltaTime : Q) (g : GameEngine) : GameEngine :=
  updateSpawning deltaTime
    (updateParticles deltaTime
       (updatePowerUps deltaTime
          (updateProjectiles deltaTime
             (updateEnemies deltaTime
                (updatePlayer deltaTime g))))).

(** The first two statements of [update]. *)
Definition startTick (timestamp : Q) (g : GameEngine) : GameEngine :=
  set_frameCount (frameCount g + 1)%Z (set_lastTime timestamp g).

Definition update (timestamp : Q) (g : GameEngine) : GameEngine :=
  let deltaTime := timestamp - lastTime g in
  let g := startTick timestamp g in
  cleanup (updateGameState (handleCollisions (updateObjects deltaTime g))).

Definition reset (g : GameEngine) : GameEngine :=
  let g := set_score 0%Z g in
  let g := set_lives 3%Z g in
  let g := set_level 1%Z g in
  let g := set_gameSpeed 1 g in
  (* Reset player *)
  let p := player g in
  let p :=
    player_with
      (set_position (mkVector2D (width (canvas g) / 2) (height (canvas g) - 60))) p in
  let p := player_set_health 100%Z p in
  let p := player_set_powerUps [] p in
  let g := set_player p g in
  (* Clear all game objects *)
  let g := set_enemies [] g in
  let g := set_projectiles [] g in
  let g := set_powerUps [] g in
  let g := set_particles [] g in
  (* Reset timers *)
  let g := set_enemySpawnTimer 0 g in
  let g := set_powerUpSpawnTimer POWERUP_SPAWN_RATE g in
  (* Reset callbacks *)
  let g := invoke (onScoreChange (score g)) g in
  let g := invoke (onLivesChange (lives g)) g in
  let g := invoke (onLevelChange (level g)) g in
  invoke (onPowerUpChange []) g.

(** A session: the calls the driver makes on the engine after it has
    constructed or reset it, [update] once per frame and [setPlayerInput] on
    key events. *)
Inductive DriverCall :=
| call_update (timestamp : Q)
| call_setPlayerInput (action : Action) (pressed : bool).

Definition drive (g : GameEngine) (c : DriverCall) : GameEngine :=
  match c with
  | call_update timestamp => update timestamp g
  | call_setPlayerInput action pressed => setPlayerInput action pressed g
  end.

Definition session (cs : list DriverCall) (g : GameEngine) : GameEngine :=
  fold_left drive cs g.

(** ** States the engine can be in *)

Inductive reachable : GameEngine -> Prop :=
| reach_construct cv : reachable (construct cv)
| reach_update t g : reachable g -> reachable (update t g)
| reach_input a b g : reachable g -> reachable (setPlayerInput a b g)
| reach_reset g : reachable g -> reachable (reset g).

(** ** Reasoning about loops *)

Section ForEach.
Context {A St : Type} (body : A -> St -> A * St).

Lemma forEach_length l s : length (fst (forEach body l s)) = length l.
Proof.
  revert s. induction l as [|a l IH]; intro s; simpl; trivial.
  destruct (body a s) as [a' s1]. specialize (IH s1).
  destruct (forEach body l s1) as [l' s2]. simpl in *. now rewrite IH.
Qed.

(** A reflexive and transitive relation between states that every run of
    the body satisfies relates the states before and after the loop. *)
Variable R : St -> St -> Prop.
Hypothesis R_refl : forall s, R s s.
Hypothesis R_trans : forall s1 s2 s3, R s1 s2 -> R s2 s3 -> R s1 s3.
Hypothesis R_body : forall a s, R s (snd (body a s)).

Lemma forEach_rel l s : R s (snd (forEach body l s)).
Proof.
  revert s. induction l as [|a l IH]; intro s; simpl; auto.
  pose proof (R_body a s) as Hb.
  destruct (body a s) as [a' s1]. specialize (IH s1).
  destruct (forEach body l s1) as [l' s2]. simpl in *. eauto.
Qed.

(** The element at index [i] after the loop is what the body made of the
    element at index [i], in a state reached from the initial one; the
    final state is reached from the state the body left. *)
Lemma forEach_nth l s i a :
  nth_error l i = Some a ->
  exists si, R s si /\
    nth_error (fst (forEach body l s)) i = Some (fst (body a si)) /\
    R (snd (body a si)) (snd (forEach body l s)).
Proof.
  revert s i. induction l as [|b l IH]; intros s i Hi.
  - destruct i; discriminate.
  - simpl. destruct i as [|i]; simpl in Hi.
    + injection Hi as ->. exists s. split; [apply R_refl|].
      pose proof (forEach_rel l (snd (body a s))) as Hr.
      destruct (body a s) as [a' s1]. simpl in *.
      destruct (forEach body l s1) as [l' s2]. simpl in *. auto.
    + pose proof (R_body b s) as Hb.
      destruct (body b s) as [b' s1]. simpl in Hb.
      destruct (IH s1 i Hi) as (si & Hsi & Hn & Hf).
      destruct (forEach body l s1) as [l' s2]. simpl in *.
      exists si. eauto.
Qed.
End ForEach.

(** ** What each method leaves alone *)

(** The particles [createParticles] pushes when [Math.random] has been
    called [k] times. *)
Fixpoint newParticles (pos : Vector2D) (col : string) (count k : nat) : list Particle :=
  match count with
  | O => []
  | S count' =>
      mkParticle
        (mkGameObject
           (mkVector2D (x pos) (y pos))
           (mkVector2D ((Math_random k - 0.5) * 200) ((Math_random (S k) - 0.5) * 200))
           (mkVector2D 3 3)
           true)
        (500 + Math_random (S (S k)) * 500) 1000 col
      :: newParticles pos col count' (S (S (S k)))
  end.

Lemma createParticles_eq pos col count g :
  createParticles pos col count g =
  set_randomCalls (3 * count + randomCalls g)
    (set_particles (particles g ++ newParticles pos col count (randomCalls g)) g).
Proof.
  revert g. induction count as [|n IH]; intro g.
  - destruct g. cbn. now rewrite app_nil_r.
  - cbn [createParticles random]. rewrite IH. cbn.
    rewrite <- app_assoc. cbn.
    replace (n + (n + (n + 0)) + S (S (S (randomCalls g))))%nat
      with (S (n + S (n + S (n + 0)) + randomCalls g))%nat by lia.
    reflexivity.
Qed.

Opaque createParticles.

Lemma newParticles_active pos col count k :
  Forall (fun p : Particle => active p = true) (newParticles pos col count k).
Proof.
  revert k. induction count; intro k; simpl; constructor; auto.
Qed.

(** ** reset *)

(** C8.  [reset], called in any state, restores score 0, lives 3, level 1
    and game speed 1, puts the player back at the centre of the bottom of
    the canvas, clears the player's power-up map, empties the four transient
    collections, sets the enemy spawn timer to 0 and the power-up spawn
    timer to its full interval (15000 ms), and invokes the four state
    callbacks, in order, with the reset values (an empty power-up list). *)
Theorem reset_restores_initial_state (g : GameEngine) :
  score (reset g) = 0%Z /\
  lives (reset g) = 3%Z /\
  level (reset g) = 1%Z /\
  gameSpeed (reset g) = 1 /\
  position (player (reset g)) =
    mkVector2D (width (canvas g) / 2) (height (canvas g) - 60) /\
  player_powerUps (player (reset g)) = [] /\
  enemies (reset g) = [] /\
  projectiles (reset g) = [] /\
  powerUps (reset g) = [] /\
  particles (reset g) = [] /\
  enemySpawnTimer (reset g) = 0 /\
  powerUpSpawnTimer (reset g) = 15000 /\
  calls (reset g) =
    calls g ++ [onScoreChange 0; onLivesChange 3; onLevelChange 1; onPowerUpChange []].
Proof.
  unfold reset, invoke. cbn.
  repeat rewrite <- app_assoc. cbn.
  repeat split; reflexivity.
Qed.

(** ** createPlayerProjectile *)

(** C10.  A shot of the player creates exactly one projectile when
    [multiShot] is not in the player's power-up map and exactly three when it
    is: the straight one, one 15 px to the left with horizontal velocity -50
    and one 15 px to the right with horizontal velocity +50; all of them
    leave from the nose of the ship at speed 400 upwards, with damage 25 and
    owner ['player'].  [updatePlayer] creates them exactly when shoot is held
    and the cooldown has run out. *)
Theorem createPlayerProjectile_one_or_three (g : GameEngine) (deltaTime : Q) :
  let px := x (position (player g)) in
  let py := y (position (player g)) - y (size (player g)) / 2 in
  let shot (sx vx : Q) :=
    mkProjectile
      (mkGameObject (mkVector2D sx py) (mkVector2D vx (-400)) (mkVector2D 4 12) true)
      25%Z owner_player in
  projectiles (createPlayerProjectile g) =
    projectiles g ++
      (if Map_has multiShot (player_powerUps (player g))
       then [shot px 0; shot (px - 15) (-50); shot (px + 15) 50]
       else [shot px 0]) /\
  length (projectiles (updatePlayer deltaTime g)) =
    (length (projectiles g) +
     if input_shoot (input g)
        && Qle_bool (Qmax 0 (player_shootCooldown (player g) - deltaTime)) 0
     then (if Map_has multiShot (player_powerUps (player g)) then 3 else 1)
     else 0)%nat.
Proof.
  cbv zeta. split.
  - unfold createPlayerProjectile. cbn.
    destruct (Map_has multiShot (player_powerUps (player g))); cbn.
    + rewrite <- app_assoc. reflexivity.
    + reflexivity.
  - unfold updatePlayer, invoke. cbn.
    destruct (input_shoot (input g)
              && Qle_bool (Qmax 0 (player_shootCooldown (player g) - deltaTime)) 0); cbn.
    + unfold createPlayerProjectile. cbn.
      destruct (Map_has multiShot (player_powerUps (player g))); cbn;
        repeat rewrite length_app; cbn; lia.
    + lia.
Qed.

(** ** Frame tactics *)

Ltac break_if :=
  match goal with
  | |- context [if ?c then _ else _] => destruct c eqn:?
  end.

(** Unfolds the loop bodies and the methods without loops. *)
Ltac unfold_engine :=
  unfold updatePlayer, updateEnemy, updateProjectiles, updatePowerUps, updateParticles,
    updateSpawning, spawnEnemy, spawnPowerUp, createEnemyProjectile,
    createPlayerProjectile, updateGameState, cleanup, startTick,
    hitEnemy, projectileVsEnemies, projectileVsPlayer, playerVsEnemy,
    playerVsPowerUp, loseLife, invoke, random in *.

(** Closes goals that say that a field is left as it was by a method
    without a loop, or by the body of a loop. *)
Ltac frame :=
  intros; unfold_engine; cbv zeta;
  rewrite ?createParticles_eq; cbn;
  repeat (break_if; cbn);
  try reflexivity; try (split; reflexivity).

Lemma forEach_keeps {A T : Type} (f : GameEngine -> T)
      (body : A -> GameEngine -> A * GameEngine) :
  (forall a g, f (snd (body a g)) = f g) ->
  forall l g, f (snd (forEach body l g)) = f g.
Proof.
  intros Hb l g.
  apply (forEach_rel body (fun g g' => f g' = f g)); auto.
  intros; congruence.
Qed.

Lemma forEach_keeps2 {A B T : Type} (f : GameEngine -> T)
      (body : A -> B * GameEngine -> A * (B * GameEngine)) :
  (forall a s, f (snd (snd (body a s))) = f (snd s)) ->
  forall l s, f (snd (snd (forEach body l s))) = f (snd s).
Proof.
  intros Hb l s.
  apply (forEach_rel body (fun s s' => f (snd s') = f (snd s))); auto.
  intros; congruence.
Qed.

(** ** Game over *)

Definition isGameOver (c : Callback) : bool :=
  match c with onGameOver => true | _ => false end.

Definition countGameOver (l : list Callback) : nat :=
  length (filter isGameOver l).

(** The callbacks invoked between the state [g0] and the later state [g]. *)
Definition callsSince (g0 g : GameEngine) : list Callback :=
  skipn (length (calls g0)) (calls g).

(** The game-over calls that [l] lives account for, starting from a
    positive number of lives: none while [l > 0], one at 0, one more for
    each life below. *)
Definition gameOverDue (l : Z) : Z := Z.max 0 (1 - l).

(** From [g] to [g'] the log has grown, lives have not increased, and
    game-over was invoked once for each life lost at or below 0. *)
Definition livesLog (g g' : GameEngine) : Prop :=
  exists new,
    calls g' = calls g ++ new /\
    (lives g' <= lives g)%Z /\
    Z.of_nat (countGameOver new) = (gameOverDue (lives g') - gameOverDue (lives g))%Z.

Lemma countGameOver_app l1 l2 :
  countGameOver (l1 ++ l2) = (countGameOver l1 + countGameOver l2)%nat.
Proof. unfold countGameOver. now rewrite filter_app, length_app. Qed.

Lemma livesLog_refl g : livesLog g g.
Proof.
  exists []. rewrite app_nil_r. cbn. repeat split; lia.
Qed.

Lemma livesLog_trans g1 g2 g3 : livesLog g1 g2 -> livesLog g2 g3 -> livesLog g1 g3.
Proof.
  intros (n1 & E1 & L1 & C1) (n2 & E2 & L2 & C2).
  exists (n1 ++ n2). rewrite E2, E1, app_assoc, countGameOver_app.
  repeat split; lia.
Qed.

Definition logAndLives (g : GameEngine) : list Callback * Z * Z :=
  (calls g, lives g, score g).

Lemma livesLog_same g g' : logAndLives g' = logAndLives g -> livesLog g g'.
Proof.
  unfold logAndLives. intros [= E L _]. exists []. rewrite app_nil_r, L. cbn.
  repeat split; auto; lia.
Qed.

Lemma livesLog_loseLife col count g : livesLog g (loseLife col count g).
Proof.
  unfold loseLife, invoke. cbn. rewrite createParticles_eq. cbn.
  destruct (lives g - 1 <=? 0)%Z eqn:E; cbn.
  - exists [onLivesChange (lives g - 1); onGameOver].
    rewrite <- app_assoc. cbn. unfold gameOverDue.
    apply Z.leb_le in E. repeat split; lia.
  - exists [onLivesChange (lives g - 1)]. cbn. unfold gameOverDue.
    apply Z.leb_gt in E. repeat split; lia.
Qed.

Lemma livesLog_forEach {A} (body : A -> GameEngine -> A * GameEngine) :
  (forall a g, livesLog g (snd (body a g))) ->
  forall l g, livesLog g (snd (forEach body l g)).
Proof.
  intros Hb l g.
  apply (forEach_rel body livesLog);
    eauto using livesLog_refl, livesLog_trans.
Qed.

Lemma livesLog_updatePlayer dt g : livesLog g (updatePlayer dt g).
Proof.
  match goal with
  | |- livesLog g ?g' =>
      assert (H : exists c, calls g' = calls g ++ [onPowerUpChange c] /\ lives g' = lives g)
  end.
  { unfold updatePlayer, invoke. cbn. break_if; cbn.
    - unfold createPlayerProjectile. cbn. break_if; cbn; eauto.
    - eauto. }
  destruct H as (c & E & L). exists [onPowerUpChange c].
  rewrite L. cbn. repeat split; auto; lia.
Qed.

Lemma logAndLives_updateEnemies dt g :
  logAndLives (updateEnemies dt g) = logAndLives g.
Proof.
  unfold updateEnemies.
  pose proof (forEach_keeps logAndLives (updateEnemy dt)) as H.
  specialize (H ltac:(frame) (enemies g) g).
  destruct (forEach (updateEnemy dt) (enemies g) g) as [es g']. exact H.
Qed.

Lemma logAndLives_updateObjects_rest dt g :
  logAndLives
    (updateSpawning dt (updateParticles dt (updatePowerUps dt
       (updateProjectiles dt (updateEnemies dt g))))) = logAndLives g.
Proof.
  rewrite <- (logAndLives_updateEnemies dt g). frame.
Qed.

Lemma livesLog_updateObjects dt g : livesLog g (updateObjects dt g).
Proof.
  unfold updateObjects.
  eapply livesLog_trans; [apply livesLog_updatePlayer|].
  apply livesLog_same, logAndLives_updateObjects_rest.
Qed.

Lemma livesLog_quiet g g' new :
  calls g' = calls g ++ new -> countGameOver new = O -> lives g' = lives g ->
  livesLog g g'.
Proof.
  intros E C L. exists new. rewrite L, C. cbn. repeat split; auto; lia.
Qed.

Lemma livesLog_hitEnemy enemy s :
  livesLog (snd s) (snd (snd (hitEnemy enemy s))).
Proof.
  destruct s as [projectile g]. unfold hitEnemy. cbn.
  repeat (break_if; cbn); try apply livesLog_refl;
    unfold invoke; rewrite ?createParticles_eq; cbn.
  - apply (livesLog_quiet _ _ [onScoreChange (score g + enemy_points enemy)]);
      reflexivity.
  - apply livesLog_same. reflexivity.
Qed.

Lemma livesLog_projectileVsEnemies projectile g :
  livesLog g (snd (projectileVsEnemies projectile g)).
Proof.
  unfold projectileVsEnemies. break_if; cbn; [apply livesLog_refl|].
  pose proof (forEach_rel hitEnemy (fun s s' => livesLog (snd s) (snd s'))
                (fun s => livesLog_refl (snd s))
                (fun s1 s2 s3 => livesLog_trans (snd s1) (snd s2) (snd s3))
                livesLog_hitEnemy (enemies g) (projectile, g)) as H.
  destruct (forEach hitEnemy (enemies g) (projectile, g)) as [es [p' g']].
  cbn in *. eapply livesLog_trans; [exact H|]. apply livesLog_same. reflexivity.
Qed.

Lemma livesLog_projectileVsPlayer projectile g :
  livesLog g (snd (projectileVsPlayer projectile g)).
Proof.
  unfold projectileVsPlayer.
  repeat (break_if; cbn); try apply livesLog_refl. apply livesLog_loseLife.
Qed.

Lemma livesLog_playerVsEnemy enemy g :
  livesLog g (snd (playerVsEnemy enemy g)).
Proof.
  unfold playerVsEnemy.
  repeat (break_if; cbn); try apply livesLog_refl. apply livesLog_loseLife.
Qed.

Lemma livesLog_playerVsPowerUp powerUp g :
  livesLog g (snd (playerVsPowerUp powerUp g)).
Proof.
  apply livesLog_same. frame.
Qed.

Lemma livesLog_handleCollisions g : livesLog g (handleCollisions g).
Proof.
  unfold handleCollisions.
  assert (P1 : forall g, livesLog g (collidePlayerProjectiles g)).
  { intro h. unfold collidePlayerProjectiles.
    pose proof (livesLog_forEach _ livesLog_projectileVsEnemies (projectiles h) h) as H.
    destruct (forEach projectileVsEnemies (projectiles h) h) as [r h']. cbn in *.
    eapply livesLog_trans; [exact H|]. apply livesLog_same. reflexivity. }
  assert (P2 : forall g, livesLog g (collideEnemyProjectiles g)).
  { intro h. unfold collideEnemyProjectiles.
    pose proof (livesLog_forEach _ livesLog_projectileVsPlayer (projectiles h) h) as H.
    destruct (forEach projectileVsPlayer (projectiles h) h) as [r h']. cbn in *.
    eapply livesLog_trans; [exact H|]. apply livesLog_same. reflexivity. }
  assert (P3 : forall g, livesLog g (collideEnemies g)).
  { intro h. unfold collideEnemies.
    pose proof (livesLog_forEach _ livesLog_playerVsEnemy (enemies h) h) as H.
    destruct (forEach playerVsEnemy (enemies h) h) as [r h']. cbn in *.
    eapply livesLog_trans; [exact H|]. apply livesLog_same. reflexivity. }
  assert (P4 : forall g, livesLog g (collidePowerUps g)).
  { intro h. unfold collidePowerUps.
    pose proof (livesLog_forEach _ livesLog_playerVsPowerUp (powerUps h) h) as H.
    destruct (forEach playerVsPowerUp (powerUps h) h) as [r h']. cbn in *.
    eapply livesLog_trans; [exact H|]. apply livesLog_same. reflexivity. }
  eauto using livesLog_trans.
Qed.

Lemma livesLog_updateGameState g : livesLog g (updateGameState g).
Proof.
  unfold updateGameState. break_if; [|apply livesLog_refl].
  unfold invoke. cbn.
  apply (livesLog_quiet _ _ [onLevelChange (score g / 1000 + 1)]); reflexivity.
Qed.

Lemma logAndLives_startTick t g : logAndLives (startTick t g) = logAndLives g.
Proof. reflexivity. Qed.

Lemma logAndLives_cleanup g : logAndLives (cleanup g) = logAndLives g.
Proof. reflexivity. Qed.

Lemma livesLog_update t g : livesLog g (update t g).
Proof.
  unfold update.
  apply livesLog_trans with (startTick t g);
    [apply livesLog_same, logAndLives_startTick|].
  eapply livesLog_trans; [apply livesLog_updateObjects|].
  eapply livesLog_trans; [apply livesLog_handleCollisions|].
  eapply livesLog_trans; [apply livesLog_updateGameState|].
  apply livesLog_same, logAndLives_cleanup.
Qed.

Lemma livesLog_session cs g : livesLog g (session cs g).
Proof.
  revert g. induction cs as [|c cs IH]; intro g; cbn.
  - apply livesLog_refl.
  - eapply livesLog_trans; [|apply IH]. destruct c; cbn.
    + apply livesLog_update.
    + apply livesLog_same. reflexivity.
Qed.

Lemma callsSince_app g g' new : calls g' = calls g ++ new -> callsSince g g' = new.
Proof.
  intro E. unfold callsSince. rewrite E.
  rewrite skipn_app, skipn_all, Nat.sub_diag. reflexivity.
Qed.

(** C1 (amended).  In a session (any sequence of [update] and
    [setPlayerInput] calls) that starts at the constructed engine or right
    after a [reset], lives never exceed 3, and the game-over callback has
    been invoked exactly [max 0 (1 - lives)] times since the start: not at
    all while lives are above 0, once when the unshielded hit that brings
    lives to 0 has happened, and once more for every later unshielded hit. *)
Theorem gameOver_once_per_life_at_or_below_zero
        (cs : list DriverCall) (cv : Canvas) (g : GameEngine) :
  let count g0 := Z.of_nat (countGameOver (callsSince g0 (session cs g0))) in
  (count (construct cv) = Z.max 0 (1 - lives (session cs (construct cv))))%Z /\
  (lives (session cs (construct cv)) <= 3)%Z /\
  (count (reset g) = Z.max 0 (1 - lives (session cs (reset g))))%Z /\
  (lives (session cs (reset g)) <= 3)%Z.
Proof.
  cbv zeta.
  destruct (livesLog_session cs (construct cv)) as (n1 & E1 & L1 & C1).
  destruct (livesLog_session cs (reset g)) as (n2 & E2 & L2 & C2).
  rewrite (callsSince_app _ _ _ E1), (callsSince_app _ _ _ E2).
  unfold gameOverDue in *.
  change (lives (construct cv)) with 3%Z in *.
  change (lives (reset g)) with 3%Z in *.
  repeat split; lia.
Qed.

(** ** Deactivation is terminal *)

(** Every entity of [l] that is inactive sits unchanged at the same index
    of [l']. *)
Definition inactiveStay {A : Type} (obj : A -> GameObject) (l l' : list A) : Prop :=
  forall i a, nth_error l i = Some a -> active (obj a) = false -> nth_error l' i = Some a.

Definition stay (g g' : GameEngine) : Prop :=
  inactiveStay enemy_object (enemies g) (enemies g') /\
  inactiveStay projectile_object (projectiles g) (projectiles g') /\
  inactiveStay powerUp_object (powerUps g) (powerUps g') /\
  inactiveStay particle_object (particles g) (particles g').

Definition keepsInactive (f : GameEngine -> GameEngine) : Prop :=
  forall g, stay g (f g).

(** The stages of one tick between [startTick] and [cleanup], in order. *)
Definition pipeline (deltaTime : Q) : list (GameEngine -> GameEngine) :=
  [updatePlayer deltaTime; updateEnemies deltaTime; updateProjectiles deltaTime;
   updatePowerUps deltaTime; updateParticles deltaTime; updateSpawning deltaTime;
   collidePlayerProjectiles; collideEnemyProjectiles; collideEnemies; collidePowerUps;
   updateGameState].

Definition allActive (g : GameEngine) : Prop :=
  Forall (fun e : Enemy => active e = true) (enemies g) /\
  Forall (fun p : Projectile => active p = true) (projectiles g) /\
  Forall (fun p : PowerUp => active p = true) (powerUps g) /\
  Forall (fun p : Particle => active p = true) (particles g).

Section Stay.
Context {A : Type} (obj : A -> GameObject).

Lemma inactiveStay_refl l : inactiveStay obj l l.
Proof. intros i a H _. exact H. Qed.

Lemma inactiveStay_trans l1 l2 l3 :
  inactiveStay obj l1 l2 -> inactiveStay obj l2 l3 -> inactiveStay obj l1 l3.
Proof. intros H1 H2 i a Hi Ha. apply H2; auto. Qed.

Lemma inactiveStay_app l new : inactiveStay obj l (l ++ new).
Proof.
  intros i a Hi _. rewrite nth_error_app1; trivial.
  apply nth_error_Some. congruence.
Qed.

Lemma inactiveStay_map (f : A -> A) l :
  (forall a, active (obj a) = false -> f a = a) -> inactiveStay obj l (map f l).
Proof.
  intros Hf i a Hi Ha. rewrite nth_error_map, Hi. cbn. now rewrite Hf.
Qed.

Lemma inactiveStay_forEach {St} (body : A -> St -> A * St) l s :
  (forall a s, active (obj a) = false -> fst (body a s) = a) ->
  inactiveStay obj l (fst (forEach body l s)).
Proof.
  intros Hb i a Hi Ha.
  destruct (forEach_nth body (fun _ _ => True) (fun _ => I) (fun _ _ _ _ _ => I)
              (fun _ _ => I) l s i a Hi) as (si & _ & Hn & _).
  rewrite Hn, Hb; trivial.
Qed.
End Stay.

Lemma stay_refl g : stay g g.
Proof. repeat split; apply inactiveStay_refl. Qed.

Lemma stay_trans g1 g2 g3 : stay g1 g2 -> stay g2 g3 -> stay g1 g3.
Proof.
  intros (A1 & B1 & C1 & D1) (A2 & B2 & C2 & D2).
  repeat split; eapply inactiveStay_trans; eauto.
Qed.

(** Bodies that only push to collections. *)
Ltac stay_push :=
  repeat split; cbn;
  first [apply inactiveStay_refl | apply inactiveStay_app
        | rewrite <- app_assoc; apply inactiveStay_app].

Lemma stay_createParticles pos col count g : stay g (createParticles pos col count g).
Proof. rewrite createParticles_eq. stay_push. Qed.

Lemma stay_updatePlayer dt : keepsInactive (updatePlayer dt).
Proof.
  intro g. unfold updatePlayer, invoke. cbn. break_if; cbn.
  - unfold createPlayerProjectile. cbn. break_if; stay_push.
  - stay_push.
Qed.

Lemma stay_updateEnemy dt enemy g : stay g (snd (updateEnemy dt enemy g)).
Proof.
  unfold updateEnemy, createEnemyProjectile, random.
  repeat (break_if; cbn); stay_push.
Qed.

Lemma stay_updateEnemies dt : keepsInactive (updateEnemies dt).
Proof.
  intro g. unfold updateEnemies.
  pose proof (forEach_rel (updateEnemy dt) stay stay_refl stay_trans
                (stay_updateEnemy dt) (enemies g) g) as H.
  pose proof (inactiveStay_forEach enemy_object (updateEnemy dt) (enemies g) g) as He.
  destruct (forEach (updateEnemy dt) (enemies g) g) as [es g']. cbn in *.
  destruct H as (_ & B & C & D). repeat split; trivial.
  apply He. intros a s Ha. unfold updateEnemy. now rewrite Ha.
Qed.

Lemma stay_updateProjectiles dt : keepsInactive (updateProjectiles dt).
Proof.
  intro g. repeat split; cbn; try apply inactiveStay_refl.
  apply inactiveStay_map. intros a Ha. unfold updateProjectile. now rewrite Ha.
Qed.

Lemma stay_updatePowerUps dt : keepsInactive (updatePowerUps dt).
Proof.
  intro g. repeat split; cbn; try apply inactiveStay_refl.
  apply inactiveStay_map. intros a Ha. unfold updatePowerUp. now rewrite Ha.
Qed.

Lemma stay_updateParticles dt : keepsInactive (updateParticles dt).
Proof.
  intro g. repeat split; cbn; try apply inactiveStay_refl.
  apply inactiveStay_map. intros a Ha. unfold updateParticle. now rewrite Ha.
Qed.

Lemma stay_updateSpawning dt : keepsInactive (updateSpawning dt).
Proof.
  intro g. unfold updateSpawning, spawnEnemy, spawnPowerUp, random. cbn.
  repeat (break_if; cbn); stay_push.
Qed.

Lemma stay_frame g g' :
  enemies g' = enemies g -> projectiles g' = projectiles g ->
  powerUps g' = powerUps g -> particles g' = particles g -> stay g g'.
Proof.
  intros E P U A. unfold stay. rewrite E, P, U, A.
  repeat split; apply inactiveStay_refl.
Qed.

Lemma stay_invoke c g : stay g (invoke c g).
Proof. apply stay_frame; reflexivity. Qed.

Lemma stay_set_score v g : stay g (set_score v g).
Proof. apply stay_frame; reflexivity. Qed.

Lemma stay_set_lives v g : stay g (set_lives v g).
Proof. apply stay_frame; reflexivity. Qed.

Lemma stay_set_player v g : stay g (set_player v g).
Proof. apply stay_frame; reflexivity. Qed.

Lemma stay_hitEnemy enemy s : stay (snd s) (snd (snd (hitEnemy enemy s))).
Proof.
  destruct s as [projectile g]. unfold hitEnemy. cbn [snd].
  destruct (negb (active enemy)); [apply stay_refl|].
  destruct (checkCollision projectile enemy); [|apply stay_refl].
  break_if; cbn [snd].
  - eapply stay_trans; [|apply stay_createParticles].
    eapply stay_trans; [|apply stay_invoke].
    eapply stay_trans; [|apply stay_set_score].
    apply stay_createParticles.
  - apply stay_createParticles.
Qed.

Lemma stay_projectileVsEnemies projectile g :
  stay g (snd (projectileVsEnemies projectile g)).
Proof.
  unfold projectileVsEnemies. break_if; cbn; [apply stay_refl|].
  pose proof (forEach_rel hitEnemy (fun s s' => stay (snd s) (snd s'))
                (fun s => stay_refl (snd s))
                (fun s1 s2 s3 => stay_trans (snd s1) (snd s2) (snd s3))
                stay_hitEnemy (enemies g) (projectile, g)) as H.
  pose proof (inactiveStay_forEach enemy_object hitEnemy (enemies g) (projectile, g)) as He.
  destruct (forEach hitEnemy (enemies g) (projectile, g)) as [es [p' g']]. cbn in *.
  destruct H as (_ & B & C & D). repeat split; trivial.
  apply He. intros a [p h] Ha. unfold hitEnemy. now rewrite Ha.
Qed.

Lemma stay_collidePlayerProjectiles : keepsInactive collidePlayerProjectiles.
Proof.
  intro g. unfold collidePlayerProjectiles.
  pose proof (forEach_rel projectileVsEnemies stay stay_refl stay_trans
                stay_projectileVsEnemies (projectiles g) g) as H.
  pose proof (inactiveStay_forEach projectile_object projectileVsEnemies
                (projectiles g) g) as Hp.
  destruct (forEach projectileVsEnemies (projectiles g) g) as [ps g']. cbn in *.
  destruct H as (E & _ & C & D). repeat split; trivial.
  apply Hp. intros a s Ha. unfold projectileVsEnemies. now rewrite Ha.
Qed.

Lemma stay_loseLife col count g : stay g (loseLife col count g).
Proof.
  unfold loseLife. cbv zeta.
  assert (H : stay g (createParticles
                        (position (player (invoke (onLivesChange (lives (set_lives (lives g - 1) g)))
                                             (set_lives (lives g - 1) g))))
                        col count
                        (invoke (onLivesChange (lives (set_lives (lives g - 1) g)))
                           (set_lives (lives g - 1) g)))).
  { eapply stay_trans; [|apply stay_createParticles].
    eapply stay_trans; [|apply stay_invoke]. apply stay_set_lives. }
  break_if; [|exact H].
  eapply stay_trans; [exact H|apply stay_invoke].
Qed.

Lemma stay_collideEnemyProjectiles : keepsInactive collideEnemyProjectiles.
Proof.
  intro g. unfold collideEnemyProjectiles.
  assert (Hb : forall a h, stay h (snd (projectileVsPlayer a h))).
  { intros a h. unfold projectileVsPlayer.
    repeat (break_if; cbn); try apply stay_refl. apply stay_loseLife. }
  pose proof (forEach_rel projectileVsPlayer stay stay_refl stay_trans
                Hb (projectiles g) g) as H.
  pose proof (inactiveStay_forEach projectile_object projectileVsPlayer
                (projectiles g) g) as Hp.
  destruct (forEach projectileVsPlayer (projectiles g) g) as [ps g']. cbn in *.
  destruct H as (E & _ & C & D). repeat split; trivial.
  apply Hp. intros a s Ha. unfold projectileVsPlayer. now rewrite Ha.
Qed.

Lemma stay_collideEnemies : keepsInactive collideEnemies.
Proof.
  intro g. unfold collideEnemies.
  assert (Hb : forall a h, stay h (snd (playerVsEnemy a h))).
  { intros a h. unfold playerVsEnemy.
    repeat (break_if; cbn); try apply stay_refl. apply stay_loseLife. }
  pose proof (forEach_rel playerVsEnemy stay stay_refl stay_trans
                Hb (enemies g) g) as H.
  pose proof (inactiveStay_forEach enemy_object playerVsEnemy (enemies g) g) as He.
  destruct (forEach playerVsEnemy (enemies g) g) as [es g']. cbn in *.
  destruct H as (_ & B & C & D). repeat split; trivial.
  apply He. intros a s Ha. unfold playerVsEnemy. now rewrite Ha.
Qed.

Lemma stay_collidePowerUps : keepsInactive collidePowerUps.
Proof.
  intro g. unfold collidePowerUps.
  assert (Hb : forall a h, stay h (snd (playerVsPowerUp a h))).
  { intros a h. unfold playerVsPowerUp.
    repeat (break_if; cbn [snd]); try apply stay_refl.
    eapply stay_trans; [|apply stay_createParticles]. apply stay_set_player. }
  pose proof (forEach_rel playerVsPowerUp stay stay_refl stay_trans
                Hb (powerUps g) g) as H.
  pose proof (inactiveStay_forEach powerUp_object playerVsPowerUp (powerUps g) g) as Hu.
  destruct (forEach playerVsPowerUp (powerUps g) g) as [us g']. cbn in *.
  destruct H as (E & B & _ & D). repeat split; trivial.
  apply Hu. intros a s Ha. unfold playerVsPowerUp. now rewrite Ha.
Qed.

Lemma stay_updateGameState : keepsInactive updateGameState.
Proof.
  intro g. unfold updateGameState, invoke. break_if; stay_push.
Qed.

Lemma allActive_cleanup g : allActive (cleanup g).
Proof.
  unfold allActive, cleanup. cbn.
  repeat split; apply Forall_forall; intros a Ha;
    apply filter_In in Ha; tauto.
Qed.

(** C9.  Right after the cleanup step, that is after every [update], the
    four transient collections hold active entities only; and deactivation
    is terminal: [update] is [startTick], then the stages of [pipeline], then
    [cleanup], every stage leaves an inactive entity unchanged at its index
    (so nothing sets [active] back to true), and [cleanup] only removes:
    what the collections hold after it they held before it. *)
Theorem inactive_removed_and_never_reactivated (t deltaTime : Q) (g : GameEngine) :
  allActive (update t g) /\
  update t g =
    cleanup (fold_left (fun g f => f g) (pipeline (t - lastTime g)) (startTick t g)) /\
  stay g (startTick t g) /\
  Forall keepsInactive (pipeline deltaTime) /\
  incl (enemies (cleanup g)) (enemies g) /\
  incl (projectiles (cleanup g)) (projectiles g) /\
  incl (powerUps (cleanup g)) (powerUps g) /\
  incl (particles (cleanup g)) (particles g).
Proof.
  split; [apply allActive_cleanup|].
  split; [unfold update, pipeline, handleCollisions, updateObjects;
          cbn [fold_left]; reflexivity|].
  split; [apply stay_frame; reflexivity|].
  split.
  - unfold pipeline.
    repeat (apply Forall_cons;
      [solve [auto using stay_updatePlayer, stay_updateEnemies, stay_updateProjectiles,
                stay_updatePowerUps, stay_updateParticles, stay_updateSpawning,
                stay_collidePlayerProjectiles, stay_collideEnemyProjectiles,
                stay_collideEnemies, stay_collidePowerUps, stay_updateGameState]|]).
    apply Forall_nil.
  - unfold cleanup. cbn. repeat split; apply incl_filter.
Qed.

(** ** Shield *)

Definition shielded (g : GameEngine) : Prop :=
  Map_has shield (player_powerUps (player g)) = true.

(** The player object is the same and, if it carries a shield, so are the
    lives. *)
Definition shieldHolds (g g' : GameEngine) : Prop :=
  player g' = player g /\ (shielded g -> lives g' = lives g).

Lemma shieldHolds_refl g : shieldHolds g g.
Proof. split; auto. Qed.

Lemma shieldHolds_trans g1 g2 g3 :
  shieldHolds g1 g2 -> shieldHolds g2 g3 -> shieldHolds g1 g3.
Proof.
  unfold shieldHolds, shielded. intros [P1 L1] [P2 L2].
  split; [congruence|]. intro H. rewrite L2, L1; congruence.
Qed.

Lemma shieldHolds_frame g g' :
  player g' = player g -> lives g' = lives g -> shieldHolds g g'.
Proof. split; auto. Qed.

(** Same position and size at the same index. *)
Definition boxStay {A : Type} (obj : A -> GameObject) (l l' : list A) : Prop :=
  forall i a, nth_error l i = Some a ->
    exists a', nth_error l' i = Some a' /\
      position (obj a') = position (obj a) /\ size (obj a') = size (obj a) /\
      (active (obj a) = false -> active (obj a') = false).

Lemma boxStay_refl {A} (obj : A -> GameObject) l : boxStay obj l l.
Proof. intros i a H. eauto. Qed.

Lemma boxStay_trans {A} (obj : A -> GameObject) l1 l2 l3 :
  boxStay obj l1 l2 -> boxStay obj l2 l3 -> boxStay obj l1 l3.
Proof.
  intros H1 H2 i a Hi.
  destruct (H1 i a Hi) as (a1 & N1 & P1 & S1 & A1).
  destruct (H2 i a1 N1) as (a2 & N2 & P2 & S2 & A2).
  exists a2. repeat split; try congruence. auto.
Qed.

Lemma boxStay_forEach {A St} (obj : A -> GameObject) (body : A -> St -> A * St) l s :
  (forall a s, position (obj (fst (body a s))) = position (obj a) /\
               size (obj (fst (body a s))) = size (obj a) /\
               (active (obj a) = false -> active (obj (fst (body a s))) = false)) ->
  boxStay obj l (fst (forEach body l s)).
Proof.
  intros Hb i a Hi.
  destruct (forEach_nth body (fun _ _ => True) (fun _ => I) (fun _ _ _ _ _ => I)
              (fun _ _ => I) l s i a Hi) as (si & _ & Hn & _).
  exists (fst (body a si)). split; [exact Hn|apply Hb].
Qed.

Lemma checkCollision_box (a a' b b' : GameObject) :
  position a' = position a -> size a' = size a ->
  position b' = position b -> size b' = size b ->
  checkCollision a' b' = checkCollision a b.
Proof. unfold checkCollision. now intros -> -> -> ->. Qed.

Lemma hitEnemy_box enemy s :
  position (fst (hitEnemy enemy s)) = position enemy /\
  size (fst (hitEnemy enemy s)) = size enemy /\
  (active enemy = false -> active (fst (hitEnemy enemy s)) = false).
Proof.
  destruct s as [p g]. unfold hitEnemy.
  repeat (break_if; cbn); auto. all: repeat split; auto; intro; discriminate.
Qed.

(** Pass 1 keeps the place, position and size of every enemy. *)
Lemma boxStay_collidePlayerProjectiles g :
  boxStay enemy_object (enemies g) (enemies (collidePlayerProjectiles g)).
Proof.
  unfold collidePlayerProjectiles.
  assert (Hb : forall a h, boxStay enemy_object (enemies h)
                             (enemies (snd (projectileVsEnemies a h)))).
  { intros a h. unfold projectileVsEnemies. break_if; cbn; [apply boxStay_refl|].
    pose proof (boxStay_forEach enemy_object hitEnemy (enemies h) (a, h) hitEnemy_box) as H.
    destruct (forEach hitEnemy (enemies h) (a, h)) as [es [p' h']]. exact H. }
  pose proof (forEach_rel projectileVsEnemies
                (fun h h' => boxStay enemy_object (enemies h) (enemies h'))
                (fun h => boxStay_refl _ _)
                (fun h1 h2 h3 => boxStay_trans _ _ _ _)
                Hb (projectiles g) g) as H.
  destruct (forEach projectileVsEnemies (projectiles g) g) as [ps g']. exact H.
Qed.

Lemma shieldHolds_loseLife_never col count g :
  player (loseLife col count g) = player g.
Proof. frame. Qed.

Lemma shieldHolds_projectileVsEnemies a g :
  shieldHolds g (snd (projectileVsEnemies a g)).
Proof.
  unfold projectileVsEnemies. break_if; cbn; [apply shieldHolds_refl|].
  pose proof (forEach_keeps2 (fun g => (player g, lives g)) hitEnemy) as H.
  specialize (H ltac:(intros e [p h]; frame) (enemies g) (a, g)).
  destruct (forEach hitEnemy (enemies g) (a, g)) as [es [p' g']]. cbn in *.
  injection H as H1 H2. apply shieldHolds_frame; assumption.
Qed.

Lemma shieldHolds_projectileVsPlayer a g :
  shieldHolds g (snd (projectileVsPlayer a g)).
Proof.
  unfold projectileVsPlayer.
  repeat (break_if; cbn); try apply shieldHolds_refl.
  split; [apply shieldHolds_loseLife_never|].
  unfold shielded. intro H. rewrite H in *. discriminate.
Qed.

Lemma shieldHolds_playerVsEnemy a g :
  shieldHolds g (snd (playerVsEnemy a g)).
Proof.
  unfold playerVsEnemy.
  repeat (break_if; cbn); try apply shieldHolds_refl.
  split; [apply shieldHolds_loseLife_never|].
  unfold shielded. intro H. rewrite H in *. discriminate.
Qed.

Lemma shieldHolds_pass {A} (body : A -> GameEngine -> A * GameEngine) l g :
  (forall a h, shieldHolds h (snd (body a h))) ->
  shieldHolds g (snd (forEach body l g)).
Proof.
  intro Hb. apply (forEach_rel body shieldHolds);
    eauto using shieldHolds_refl, shieldHolds_trans.
Qed.

Lemma shieldHolds_collidePlayerProjectiles g :
  shieldHolds g (collidePlayerProjectiles g).
Proof.
  unfold collidePlayerProjectiles.
  pose proof (shieldHolds_pass _ (projectiles g) g shieldHolds_projectileVsEnemies) as H.
  destruct (forEach projectileVsEnemies (projectiles g) g). exact H.
Qed.

Lemma shieldHolds_collideEnemyProjectiles g :
  shieldHolds g (collideEnemyProjectiles g).
Proof.
  unfold collideEnemyProjectiles.
  pose proof (shieldHolds_pass _ (projectiles g) g shieldHolds_projectileVsPlayer) as H.
  destruct (forEach projectileVsPlayer (projectiles g) g). exact H.
Qed.

Lemma shieldHolds_collideEnemies g : shieldHolds g (collideEnemies g).
Proof.
  unfold collideEnemies.
  pose proof (shieldHolds_pass _ (enemies g) g shieldHolds_playerVsEnemy) as H.
  destruct (forEach playerVsEnemy (enemies g) g). exact H.
Qed.

Lemma lives_collidePowerUps g : lives (collidePowerUps g) = lives g.
Proof.
  unfold collidePowerUps.
  pose proof (forEach_keeps lives playerVsPowerUp ltac:(frame) (powerUps g) g) as H.
  destruct (forEach playerVsPowerUp (powerUps g) g). exact H.
Qed.

Lemma enemies_collideEnemyProjectiles g :
  enemies (collideEnemyProjectiles g) = enemies g.
Proof.
  unfold collideEnemyProjectiles.
  pose proof (forEach_keeps enemies projectileVsPlayer ltac:(frame) (projectiles g) g) as H.
  destruct (forEach projectileVsPlayer (projectiles g) g). exact H.
Qed.

Lemma enemies_collidePowerUps g : enemies (collidePowerUps g) = enemies g.
Proof.
  unfold collidePowerUps.
  pose proof (forEach_keeps enemies playerVsPowerUp ltac:(frame) (powerUps g) g) as H.
  destruct (forEach playerVsPowerUp (powerUps g) g). exact H.
Qed.

Lemma projectiles_collideEnemies g : projectiles (collideEnemies g) = projectiles g.
Proof.
  unfold collideEnemies.
  pose proof (forEach_keeps projectiles playerVsEnemy ltac:(frame) (enemies g) g) as H.
  destruct (forEach playerVsEnemy (enemies g) g). exact H.
Qed.

Lemma projectiles_collidePowerUps g : projectiles (collidePowerUps g) = projectiles g.
Proof.
  unfold collidePowerUps.
  pose proof (forEach_keeps projectiles playerVsPowerUp ltac:(frame) (powerUps g) g) as H.
  destruct (forEach playerVsPowerUp (powerUps g) g). exact H.
Qed.

Lemma enemyProjectile_consumed g i (p : Projectile) :
  nth_error (projectiles g) i = Some p ->
  owner p = owner_enemy -> active p = true ->
  checkCollision p (player g) = true ->
  exists p', nth_error (projectiles (handleCollisions g)) i = Some p' /\
             active p' = false.
Proof.
  intros Hi Ho Ha Hc. unfold handleCollisions.
  rewrite projectiles_collidePowerUps, projectiles_collideEnemies.
  (* pass 1 leaves the projectiles of the enemies alone *)
  assert (H1 : nth_error (projectiles (collidePlayerProjectiles g)) i = Some p).
  { unfold collidePlayerProjectiles.
    destruct (forEach_nth projectileVsEnemies (fun _ _ => True) (fun _ => I)
                (fun _ _ _ _ _ => I) (fun _ _ => I) (projectiles g) g i p Hi)
      as (si & _ & Hn & _).
    destruct (forEach projectileVsEnemies (projectiles g) g) as [ps g']. cbn in *.
    rewrite Hn. unfold projectileVsEnemies. rewrite Ho, Ha. reflexivity. }
  pose proof (shieldHolds_collidePlayerProjectiles g) as [P1 _].
  set (g1 := collidePlayerProjectiles g) in *.
  unfold collideEnemyProjectiles.
  destruct (forEach_nth projectileVsPlayer shieldHolds shieldHolds_refl
              shieldHolds_trans shieldHolds_projectileVsPlayer
              (projectiles g1) g1 i p H1) as (si & [Ps _] & Hn & _).
  destruct (forEach projectileVsPlayer (projectiles g1) g1) as [ps g']. cbn in *.
  eexists. split; [exact Hn|].
  unfold projectileVsPlayer. rewrite Ho, Ha, Ps, P1, Hc. cbn.
  break_if; reflexivity.
Qed.

Lemma enemy_in_contact_deactivated g i (e : Enemy) :
  nth_error (enemies g) i = Some e ->
  checkCollision (player g) e = true ->
  exists e', nth_error (enemies (handleCollisions g)) i = Some e' /\
             active e' = false.
Proof.
  intros Hi Hc. unfold handleCollisions.
  rewrite enemies_collidePowerUps.
  destruct (boxStay_collidePlayerProjectiles g i e Hi) as (e1 & H1 & Pe & Se & _).
  pose proof (shieldHolds_collidePlayerProjectiles g) as [P1 _].
  pose proof (shieldHolds_collideEnemyProjectiles (collidePlayerProjectiles g)) as [P2 _].
  rewrite <- enemies_collideEnemyProjectiles in H1.
  set (g2 := collideEnemyProjectiles (collidePlayerProjectiles g)) in *.
  unfold collideEnemies.
  destruct (forEach_nth playerVsEnemy shieldHolds shieldHolds_refl
              shieldHolds_trans shieldHolds_playerVsEnemy
              (enemies g2) g2 i e1 H1) as (si & [Ps _] & Hn & _).
  destruct (forEach playerVsEnemy (enemies g2) g2) as [es g']. cbn in *.
  eexists. split; [exact Hn|].
  unfold playerVsEnemy. destruct (active e1) eqn:Ha; cbn; trivial.
  rewrite Ps, P2, P1.
  rewrite (checkCollision_box (player g) (player g) e e1) by auto.
  rewrite Hc. break_if; reflexivity.
Qed.

Lemma lives_handleCollisions_shielded g :
  shielded g -> lives (handleCollisions g) = lives g.
Proof.
  intro Hs. unfold handleCollisions. rewrite lives_collidePowerUps.
  pose proof (shieldHolds_trans _ _ _ (shieldHolds_collidePlayerProjectiles g)
                (shieldHolds_trans _ _ _
                   (shieldHolds_collideEnemyProjectiles _)
                   (shieldHolds_collideEnemies _))) as [_ H].
  auto.
Qed.

Lemma lives_updatePlayer dt g : lives (updatePlayer dt g) = lives g.
Proof. frame. Qed.

Lemma score_updatePlayer dt g : score (updatePlayer dt g) = score g.
Proof. frame. Qed.

Lemma ledger_fields g g' :
  logAndLives g' = logAndLives g ->
  calls g' = calls g /\ lives g' = lives g /\ score g' = score g.
Proof. unfold logAndLives. intros [= C L S]. auto. Qed.

Lemma lives_updateObjects dt g : lives (updateObjects dt g) = lives g.
Proof.
  unfold updateObjects.
  destruct (ledger_fields _ _ (logAndLives_updateObjects_rest dt (updatePlayer dt g)))
    as (_ & H & _).
  etransitivity; [exact H|]. apply lives_updatePlayer.
Qed.

Lemma lives_cleanup g : lives (cleanup g) = lives g.
Proof. reflexivity. Qed.

Lemma lives_updateGameState g : lives (updateGameState g) = lives g.
Proof. frame. Qed.

Lemma lives_startTick t g : lives (startTick t g) = lives g.
Proof. reflexivity. Qed.

(** C4.  When the player's power-up map holds a shield at collision
    resolution, no lives are lost, whatever hits the player; every active
    enemy projectile that overlaps the player is still deactivated, and so
    is every enemy in body contact with the player.  For a whole tick: when
    [g] is the state that the sub-updates of the tick have produced, [update]
    leaves the lives as they were before the tick. *)
Theorem shield_blocks_damage_not_deactivation (g : GameEngine) :
  shielded g ->
  lives (handleCollisions g) = lives g /\
  (forall i (p : Projectile),
     nth_error (projectiles g) i = Some p ->
     owner p = owner_enemy -> active p = true ->
     checkCollision p (player g) = true ->
     exists p', nth_error (projectiles (handleCollisions g)) i = Some p' /\
                active p' = false) /\
  (forall i (e : Enemy),
     nth_error (enemies g) i = Some e ->
     checkCollision (player g) e = true ->
     exists e', nth_error (enemies (handleCollisions g)) i = Some e' /\
                active e' = false) /\
  (forall t g0,
     g = updateObjects (t - lastTime g0) (startTick t g0) ->
     lives (update t g0) = lives g0).
Proof.
  intro Hs. split; [auto using lives_handleCollisions_shielded|].
  split; [intros; eauto using enemyProjectile_consumed|].
  split; [intros; eauto using enemy_in_contact_deactivated|].
  intros t g0 E. unfold update.
  rewrite lives_cleanup, lives_updateGameState. rewrite <- E.
  rewrite lives_handleCollisions_shielded by exact Hs.
  rewrite E, lives_updateObjects. apply lives_startTick.
Qed.

(** ** Power-up pickup *)










(** ** Score *)

Definition pointsOf (ty : EnemyType) : Z :=
  match ty with heavy => 200 | fast => 150 | basic => 100 end.

(** What holds of every enemy in the store: its point value is the one of
    its type, and while it is active its health is positive. *)
Definition enemy_ok (e : Enemy) : Prop :=
  enemy_points e = pointsOf (enemy_type e) /\
  (active e = true -> (0 < enemy_health e)%Z).

(** The health of the enemy went from above 0 to 0 or below. *)
Definition destroyed (e e' : Enemy) : bool :=
  (0 <? enemy_health e)%Z && (enemy_health e' <=? 0)%Z.

(** The points of the enemies of [es] destroyed on the way to [es'], and
    their number. *)
Fixpoint destroyedPoints (es es' : list Enemy) : Z :=
  match es, es' with
  | e :: r, e' :: r' =>
      ((if destroyed e e' then enemy_points e else 0) + destroyedPoints r r')%Z
  | _, _ => 0%Z
  end.

Fixpoint destroyedCount (es es' : list Enemy) : nat :=
  match es, es' with
  | e :: r, e' :: r' => ((if destroyed e e' then 1 else 0) + destroyedCount r r')%nat
  | _, _ => O
  end.

Definition isScoreChange (c : Callback) : bool :=
  match c with onScoreChange _ => true | _ => false end.

Definition countScore (l : list Callback) : nat := length (filter isScoreChange l).

(** The score the presentation layer shows after the calls [l], when it
    showed [s] before. *)
Definition shownScore (s : Z) (l : list Callback) : Z :=
  fold_left (fun acc c => match c with onScoreChange v => v | _ => acc end) l s.

(** An enemy keeps its point value and type, and does not change once it is
    inactive. *)
Definition evolves (e e' : Enemy) : Prop :=
  enemy_points e' = enemy_points e /\ (active e = false -> e' = e).

(** From [g] to [g']: the enemies are the same ones, the score has grown by
    the points of those destroyed in between, [onScoreChange] was invoked
    once for each of them, and the last invocation carried the score of
    [g']. *)
Definition hits (g g' : GameEngine) : Prop :=
  Forall enemy_ok (enemies g) ->
  Forall enemy_ok (enemies g') /\
  Forall2 evolves (enemies g) (enemies g') /\
  score g' = (score g + destroyedPoints (enemies g) (enemies g'))%Z /\
  exists new,
    calls g' = calls g ++ new /\
    countScore new = destroyedCount (enemies g) (enemies g') /\
    shownScore (score g) new = score g'.

Lemma countScore_app l1 l2 : countScore (l1 ++ l2) = (countScore l1 + countScore l2)%nat.
Proof. unfold countScore. now rewrite filter_app, length_app. Qed.

Lemma shownScore_app s l1 l2 : shownScore s (l1 ++ l2) = shownScore (shownScore s l1) l2.
Proof. unfold shownScore. apply fold_left_app. Qed.

Lemma destroyed_same e : destroyed e e = false.
Proof.
  unfold destroyed.
  destruct (Z.ltb_spec 0 (enemy_health e)), (Z.leb_spec (enemy_health e) 0);
    trivial; lia.
Qed.

Lemma destroyedPoints_same es : destroyedPoints es es = 0%Z.
Proof. induction es; cbn; rewrite ?destroyed_same, ?IHes; trivial. Qed.

Lemma destroyedCount_same es : destroyedCount es es = O.
Proof. induction es; cbn; rewrite ?destroyed_same, ?IHes; trivial. Qed.

Lemma evolves_refl e : evolves e e.
Proof. split; auto. Qed.

Lemma Forall2_evolves_refl es : Forall2 evolves es es.
Proof. induction es; constructor; auto using evolves_refl. Qed.

Lemma destroyed_chain e e1 e2 :
  enemy_ok e -> enemy_ok e1 -> evolves e e1 -> evolves e1 e2 ->
  evolves e e2 /\
  ((destroyed e e2 = true /\ destroyed e e1 = true /\ destroyed e1 e2 = false) \/
   (destroyed e e2 = true /\ destroyed e e1 = false /\ destroyed e1 e2 = true) \/
   (destroyed e e2 = false /\ destroyed e e1 = false /\ destroyed e1 e2 = false)).
Proof.
  intros [_ O0] [_ O1] [P1 I1] [P2 I2]. split.
  - split; [congruence|]. intro Ha. rewrite I2; rewrite (I1 Ha); auto.
  - unfold destroyed.
    destruct (active e) eqn:A0.
    + specialize (O0 eq_refl).
      destruct (active e1) eqn:A1.
      * specialize (O1 eq_refl).
        destruct (Z.ltb_spec 0 (enemy_health e)), (Z.ltb_spec 0 (enemy_health e1)),
          (Z.leb_spec (enemy_health e1) 0), (Z.leb_spec (enemy_health e2) 0);
          cbn; try lia; auto.
      * rewrite (I2 eq_refl).
        destruct (Z.ltb_spec 0 (enemy_health e)), (Z.ltb_spec 0 (enemy_health e1)),
          (Z.leb_spec (enemy_health e1) 0); cbn; try lia; auto.
    + rewrite (I2 ltac:(rewrite (I1 eq_refl); exact A0)), (I1 eq_refl).
      destruct (Z.ltb_spec 0 (enemy_health e)), (Z.leb_spec (enemy_health e) 0);
        cbn; try lia; auto.
Qed.

Lemma destroyed_lists_chain es : forall es1 es2,
  Forall enemy_ok es -> Forall enemy_ok es1 ->
  Forall2 evolves es es1 -> Forall2 evolves es1 es2 ->
  Forall2 evolves es es2 /\
  destroyedPoints es es2 = (destroyedPoints es es1 + destroyedPoints es1 es2)%Z /\
  destroyedCount es es2 = (destroyedCount es es1 + destroyedCount es1 es2)%nat.
Proof.
  induction es as [|e es IH]; intros es1 es2 O0 O1 E1 E2.
  - inversion E1; subst. inversion E2; subst. cbn. auto.
  - inversion E1 as [|? e1 ? r1 He1 Hr1]; subst.
    inversion E2 as [|? e2 ? r2 He2 Hr2]; subst.
    inversion O0; subst. inversion O1; subst.
    destruct (IH r1 r2) as (F & P & C); auto.
    destruct (destroyed_chain e e1 e2) as (Ev & D); auto.
    split; [constructor; auto|].
    cbn. rewrite P, C. destruct He1 as [Hp _].
    destruct D as [(-> & -> & ->)|[(-> & -> & ->)|(-> & -> & ->)]]; split; lia.
Qed.

Lemma hits_refl g : hits g g.
Proof.
  intro Ok. split; trivial. split; [apply Forall2_evolves_refl|].
  rewrite destroyedPoints_same, destroyedCount_same. split; [lia|].
  exists []. rewrite app_nil_r. auto.
Qed.

Lemma hits_trans g1 g2 g3 : hits g1 g2 -> hits g2 g3 -> hits g1 g3.
Proof.
  intros H1 H2 Ok.
  destruct (H1 Ok) as (Ok1 & E1 & S1 & n1 & C1 & N1 & R1).
  destruct (H2 Ok1) as (Ok2 & E2 & S2 & n2 & C2 & N2 & R2).
  destruct (destroyed_lists_chain _ _ _ Ok Ok1 E1 E2) as (E & P & C).
  split; trivial. split; trivial. split; [lia|].
  exists (n1 ++ n2). rewrite C2, C1, app_assoc, countScore_app, shownScore_app.
  repeat split; trivial; try lia. now rewrite R1.
Qed.

(** One enemy against one projectile. *)
Lemma hitEnemy_spec (e : Enemy) (p : Projectile) (g : GameEngine) :
  enemy_ok e ->
  let e' := fst (hitEnemy e (p, g)) in
  let g' := snd (snd (hitEnemy e (p, g))) in
  enemy_ok e' /\ evolves e e' /\
  (if destroyed e e'
   then score g' = (score g + enemy_points e)%Z /\
        calls g' = calls g ++ [onScoreChange (score g + enemy_points e)]
   else score g' = score g /\ calls g' = calls g).
Proof.
  intros [Hp Hh]. cbv zeta. unfold hitEnemy, destroyed.
  destruct (active e) eqn:Ha; cbn [negb fst snd].
  - specialize (Hh eq_refl).
    destruct (Z.ltb_spec 0 (enemy_health e)); [|lia].
    destruct (checkCollision p e); cbn [fst snd].
    + unfold invoke. rewrite !createParticles_eq. cbn.
      destruct (Z.leb_spec (enemy_health e - damage p) 0) as [Hd|Hd]; cbn;
        unfold enemy_ok, evolves; cbn; rewrite Ha.
      * rewrite (proj2 (Z.leb_le _ _) Hd).
        repeat split; trivial; discriminate.
      * rewrite (proj2 (Z.leb_gt _ _) Hd).
        repeat split; trivial; discriminate.
    + destruct (Z.leb_spec (enemy_health e) 0); [lia|]. cbn.
      unfold enemy_ok, evolves. repeat split; trivial.
  - unfold enemy_ok, evolves. rewrite Ha.
    destruct (Z.ltb_spec 0 (enemy_health e)), (Z.leb_spec (enemy_health e) 0);
      cbn; try lia; repeat split; trivial; try discriminate.
Qed.

(** One projectile against all enemies: the inner loop. *)
Lemma hitEnemies_spec es : forall p g,
  Forall enemy_ok es ->
  let r := forEach hitEnemy es (p, g) in
  Forall enemy_ok (fst r) /\ Forall2 evolves es (fst r) /\
  score (snd (snd r)) = (score g + destroyedPoints es (fst r))%Z /\
  exists new,
    calls (snd (snd r)) = calls g ++ new /\
    countScore new = destroyedCount es (fst r) /\
    shownScore (score g) new = score (snd (snd r)).
Proof.
  induction es as [|e es IH]; intros p g Ok; cbv zeta.
  - cbn. split; [constructor|]. split; [constructor|]. split; [lia|].
    exists []. rewrite app_nil_r. auto.
  - inversion Ok as [|? ? Oe Or]; subst. cbn [forEach].
    pose proof (hitEnemy_spec e p g Oe) as He. cbv zeta in He.
    destruct (hitEnemy e (p, g)) as [e' [p1 g1]]. cbn [fst snd] in He.
    destruct He as (Oe' & Ev & Hd).
    specialize (IH p1 g1 Or). cbv zeta in IH.
    destruct (forEach hitEnemy es (p1, g1)) as [es' [p2 g2]]. cbn [fst snd] in *.
    destruct IH as (Or' & Evs & Hs & new & Hc & Hn & Hr).
    split; [constructor; trivial|]. split; [constructor; trivial|].
    cbn [destroyedPoints destroyedCount].
    destruct (destroyed e e'); destruct Hd as [S1 C1].
    + split; [lia|].
      exists (onScoreChange (score g + enemy_points e) :: new).
      split; [rewrite Hc, C1, <- app_assoc; reflexivity|].
      split; [unfold countScore in *; cbn; now rewrite Hn|].
      unfold shownScore in *. cbn. rewrite <- S1. exact Hr.
    + split; [lia|].
      exists new. rewrite Hc, C1. repeat split; trivial.
      rewrite <- S1. exact Hr.
Qed.

Lemma hits_projectileVsEnemies p g : hits g (snd (projectileVsEnemies p g)).
Proof.
  unfold projectileVsEnemies. break_if; cbn; [apply hits_refl|].
  intro Ok. pose proof (hitEnemies_spec (enemies g) p g Ok) as H. cbv zeta in H.
  destruct (forEach hitEnemy (enemies g) (p, g)) as [es [p' g']]. exact H.
Qed.

(** A change that leaves the health of every enemy as it is destroys none. *)
Lemma destroyed_none es : forall es',
  Forall2 (fun e e' : Enemy => enemy_health e' = enemy_health e) es es' ->
  destroyedPoints es es' = 0%Z /\ destroyedCount es es' = O.
Proof.
  induction es as [|e es IH]; intros es' H; inversion H; subst; cbn; auto.
  destruct (IH _ H4) as [-> ->].
  unfold destroyed. rewrite H2.
  destruct (Z.ltb_spec 0 (enemy_health e)), (Z.leb_spec (enemy_health e) 0);
    cbn; try lia; auto.
Qed.

(** Stages that leave the score alone, invoke no [onScoreChange] and at most
    deactivate enemies. *)
Lemma hits_quiet g g' new :
  calls g' = calls g ++ new -> countScore new = O -> score g' = score g ->
  Forall2 (fun e e' : Enemy =>
             enemy_health e' = enemy_health e /\ enemy_points e' = enemy_points e /\
             enemy_type e' = enemy_type e /\
             (active e = false -> e' = e)) (enemies g) (enemies g') ->
  hits g g'.
Proof.
  intros Hc Hn Hs F Ok.
  assert (F1 : Forall2 (fun e e' : Enemy => enemy_health e' = enemy_health e)
                 (enemies g) (enemies g')).
  { eapply Forall2_impl; [|exact F]. cbn. tauto. }
  destruct (destroyed_none _ _ F1) as [-> ->].
  split.
  { clear - Ok F. induction F; inversion Ok; subst; constructor; auto.
    destruct H as (Hh & Hp & Ht & Hi). destruct H2 as [Op Oh].
    split; [congruence|]. intro Ha. rewrite Hh. apply Oh.
    destruct (active x0) eqn:E; trivial. rewrite (Hi eq_refl) in Ha. congruence. }
  split.
  { eapply Forall2_impl; [|exact F]. cbn. unfold evolves. tauto. }
  split; [lia|].
  exists new. repeat split; trivial.
  rewrite Hs. clear - Hn. revert Hn. generalize (score g).
  induction new as [|c new IH]; intros s Hn; cbn; trivial.
  destruct c; try discriminate; cbn in Hn; apply IH; exact Hn.
Qed.

Lemma Forall2_same {A} (P : A -> A -> Prop) l : (forall a, P a a) -> Forall2 P l l.
Proof. intro H. induction l; constructor; auto. Qed.

Lemma forEach_Forall2 {A St} (P : A -> A -> Prop) (body : A -> St -> A * St) :
  (forall a s, P a (fst (body a s))) ->
  forall l s, Forall2 P l (fst (forEach body l s)).
Proof.
  intros Hb l. induction l as [|a l IH]; intro s; cbn; [constructor|].
  pose proof (Hb a s) as Ha. destruct (body a s) as [a' s1].
  specialize (IH s1). destruct (forEach body l s1) as [l' s2].
  constructor; assumption.
Qed.

(** The log has grown without any [onScoreChange]; score and enemies are as
    they were. *)
Definition quiet (g g' : GameEngine) : Prop :=
  exists new,
    calls g' = calls g ++ new /\ countScore new = O /\
    score g' = score g /\ enemies g' = enemies g.

Lemma quiet_refl g : quiet g g.
Proof. exists []. rewrite app_nil_r. auto. Qed.

Lemma quiet_trans g1 g2 g3 : quiet g1 g2 -> quiet g2 g3 -> quiet g1 g3.
Proof.
  intros (n1 & C1 & N1 & S1 & E1) (n2 & C2 & N2 & S2 & E2).
  exists (n1 ++ n2). rewrite C2, C1, app_assoc, countScore_app, N1, N2.
  repeat split; congruence.
Qed.

Lemma quiet_same g g' :
  (calls g', score g', enemies g') = (calls g, score g, enemies g) -> quiet g g'.
Proof. intros [= C S E]. exists []. rewrite app_nil_r. auto. Qed.

Lemma quiet_loseLife col count g : quiet g (loseLife col count g).
Proof.
  unfold loseLife, invoke. cbn. rewrite createParticles_eq. cbn. break_if; cbn.
  - exists [onLivesChange (lives g - 1); onGameOver]. rewrite <- app_assoc. auto.
  - exists [onLivesChange (lives g - 1)]. auto.
Qed.

Lemma quiet_forEach {A} (body : A -> GameEngine -> A * GameEngine) :
  (forall a g, quiet g (snd (body a g))) ->
  forall l g, quiet g (snd (forEach body l g)).
Proof.
  intros Hb l g. apply (forEach_rel body quiet); eauto using quiet_refl, quiet_trans.
Qed.

Lemma quiet_hits g g' : quiet g g' -> hits g g'.
Proof.
  intros (new & C & N & S & E). apply (hits_quiet g g' new); trivial.
  rewrite E. apply Forall2_same. auto.
Qed.

Lemma hits_collidePlayerProjectiles g : hits g (collidePlayerProjectiles g).
Proof.
  unfold collidePlayerProjectiles.
  pose proof (forEach_rel projectileVsEnemies hits hits_refl hits_trans
                hits_projectileVsEnemies (projectiles g) g) as H.
  destruct (forEach projectileVsEnemies (projectiles g) g) as [ps g']. exact H.
Qed.

Lemma quiet_collideEnemyProjectiles g : quiet g (collideEnemyProjectiles g).
Proof.
  unfold collideEnemyProjectiles.
  assert (Hb : forall a h, quiet h (snd (projectileVsPlayer a h))).
  { intros a h. unfold projectileVsPlayer.
    repeat (break_if; cbn); try apply quiet_refl. apply quiet_loseLife. }
  pose proof (quiet_forEach _ Hb (projectiles g) g) as H.
  destruct (forEach projectileVsPlayer (projectiles g) g) as [ps g']. exact H.
Qed.

Lemma hits_collideEnemies g : hits g (collideEnemies g).
Proof.
  unfold collideEnemies.
  assert (Hb : forall a h, quiet h (snd (playerVsEnemy a h))).
  { intros a h. unfold playerVsEnemy.
    repeat (break_if; cbn); try apply quiet_refl. apply quiet_loseLife. }
  pose proof (quiet_forEach _ Hb (enemies g) g) as (new & C & N & S & E).
  pose proof (forEach_Forall2
                (fun e e' : Enemy =>
                   enemy_health e' = enemy_health e /\ enemy_points e' = enemy_points e /\
                   enemy_type e' = enemy_type e /\ (active e = false -> e' = e))
                playerVsEnemy) as F.
  specialize (F ltac:(intros a s; unfold playerVsEnemy;
                      destruct (active a) eqn:?; cbn; auto;
                      repeat (break_if; cbn); repeat split; auto; discriminate)
                (enemies g) g).
  destruct (forEach playerVsEnemy (enemies g) g) as [es g']. cbn in *.
  apply (hits_quiet g _ new); trivial.
Qed.

Lemma quiet_collidePowerUps g : quiet g (collidePowerUps g).
Proof.
  unfold collidePowerUps.
  assert (Hb : forall a h, quiet h (snd (playerVsPowerUp a h))).
  { intros a h. apply quiet_same. frame. }
  pose proof (quiet_forEach _ Hb (powerUps g) g) as H.
  destruct (forEach playerVsPowerUp (powerUps g) g) as [us g']. exact H.
Qed.

Lemma hits_handleCollisions g : hits g (handleCollisions g).
Proof.
  unfold handleCollisions.
  eapply hits_trans; [apply hits_collidePlayerProjectiles|].
  eapply hits_trans; [apply quiet_hits, quiet_collideEnemyProjectiles|].
  eapply hits_trans; [apply hits_collideEnemies|].
  apply quiet_hits, quiet_collidePowerUps.
Qed.

Lemma quiet_updateGameState g : quiet g (updateGameState g).
Proof.
  unfold updateGameState, invoke. break_if; [|apply quiet_refl]. cbn.
  exists [onLevelChange (score g / 1000 + 1)]. auto.
Qed.

Lemma calls_updatePlayer dt g :
  exists c, calls (updatePlayer dt g) = calls g ++ [onPowerUpChange c].
Proof.
  unfold updatePlayer, invoke. cbn. break_if; cbn.
  - unfold createPlayerProjectile. cbn. break_if; cbn; eauto.
  - eauto.
Qed.

(** Before collision resolution: no [onScoreChange], the score unchanged. *)
Lemma updateObjects_score dt g :
  exists new, calls (updateObjects dt g) = calls g ++ new /\ countScore new = O /\
              score (updateObjects dt g) = score g.
Proof.
  unfold updateObjects.
  destruct (ledger_fields _ _ (logAndLives_updateObjects_rest dt (updatePlayer dt g)))
    as (C & _ & S).
  destruct (calls_updatePlayer dt g) as (c & Hc).
  exists [onPowerUpChange c]. rewrite C, S, Hc, score_updatePlayer. auto.
Qed.

Lemma forEach_Forall {A St} (P : A -> Prop) (body : A -> St -> A * St) :
  (forall a s, P a -> P (fst (body a s))) ->
  forall l s, Forall P l -> Forall P (fst (forEach body l s)).
Proof.
  intros Hb l. induction l as [|a l IH]; intros s Hl; cbn; [constructor|].
  inversion Hl; subst.
  pose proof (Hb a s) as Ha. destruct (body a s) as [a' s1].
  specialize (IH s1). destruct (forEach body l s1) as [l' s2].
  constructor; auto.
Qed.

Lemma enemy_ok_updateEnemy dt e g : enemy_ok e -> enemy_ok (fst (updateEnemy dt e g)).
Proof.
  intros [Hp Hh]. unfold updateEnemy, random.
  destruct (active e) eqn:Ha; cbn; [|split; [auto|rewrite Ha; discriminate]].
  repeat (break_if; cbn); split; auto; discriminate.
Qed.

Lemma enemy_ok_updateObjects dt g :
  Forall enemy_ok (enemies g) -> Forall enemy_ok (enemies (updateObjects dt g)).
Proof.
  intro Ok. unfold updateObjects.
  assert (H1 : enemies (updatePlayer dt g) = enemies g) by frame.
  rewrite <- H1 in Ok. set (g1 := updatePlayer dt g) in *. clearbody g1.
  assert (H2 : Forall enemy_ok (enemies (updateEnemies dt g1))).
  { unfold updateEnemies.
    pose proof (forEach_Forall enemy_ok (updateEnemy dt)
                  (enemy_ok_updateEnemy dt) (enemies g1) g1 Ok) as H.
    destruct (forEach (updateEnemy dt) (enemies g1) g1). exact H. }
  set (g2 := updateEnemies dt g1) in *. clearbody g2.
  unfold updateSpawning, spawnEnemy, spawnPowerUp, random,
    updateParticles, updatePowerUps, updateProjectiles. cbn.
  repeat (break_if; cbn); trivial;
    apply Forall_app; (split; [exact H2|]); repeat constructor;
    unfold pickEnemyType; repeat match goal with |- context [match ?c with _ => _ end] => destruct c end; cbn; try lia;
    try reflexivity.
Qed.

Lemma shownScore_quiet new : forall s, countScore new = O -> shownScore s new = s.
Proof.
  induction new as [|c new IH]; intros s Hn; cbn; trivial.
  destruct c; try discriminate; cbn in Hn; apply IH; exact Hn.
Qed.

Lemma destroyedPoints_nonneg es : forall es',
  Forall enemy_ok es -> (0 <= destroyedPoints es es')%Z.
Proof.
  induction es as [|e es IH]; intros es' Ok; cbn; [lia|].
  destruct es' as [|e' es']; [lia|]. inversion Ok as [|? ? [Hp _] Or]; subst.
  specialize (IH es' Or). destruct (destroyed e e'); [|lia].
  rewrite Hp. unfold pointsOf. destruct (enemy_type e); lia.
Qed.

Lemma enemies_startTick t g : enemies (startTick t g) = enemies g.
Proof. reflexivity. Qed.

Lemma score_startTick t g : score (startTick t g) = score g.
Proof. reflexivity. Qed.

Lemma calls_startTick t g : calls (startTick t g) = calls g.
Proof. reflexivity. Qed.

Lemma cleanup_fields g :
  calls (cleanup g) = calls g /\ score (cleanup g) = score g /\
  enemies (cleanup g) = filter (fun e : Enemy => active e) (enemies g).
Proof. repeat split; reflexivity. Qed.

(** One tick, from a state whose enemies are well formed. *)
Lemma update_score t g :
  Forall enemy_ok (enemies g) ->
  let g1 := updateObjects (t - lastTime g) (startTick t g) in
  let g2 := handleCollisions g1 in
  Forall enemy_ok (enemies g1) /\
  Forall enemy_ok (enemies (update t g)) /\
  score (update t g) = (score g + destroyedPoints (enemies g1) (enemies g2))%Z /\
  exists new,
    calls (update t g) = calls g ++ new /\
    countScore new = destroyedCount (enemies g1) (enemies g2) /\
    shownScore (score g) new = score (update t g).
Proof.
  intros Ok. cbv zeta.
  rewrite <- (enemies_startTick t g) in Ok.
  pose proof (enemy_ok_updateObjects (t - lastTime g) _ Ok) as Ok1.
  destruct (updateObjects_score (t - lastTime g) (startTick t g)) as (n1 & C1 & N1 & S1).
  rewrite calls_startTick in C1. rewrite score_startTick in S1.
  unfold update. cbv zeta.
  set (g1 := updateObjects (t - lastTime g) (startTick t g)) in *. clearbody g1.
  destruct (hits_handleCollisions g1 Ok1) as (Ok2 & _ & S2 & n2 & C2 & N2 & R2).
  set (g2 := handleCollisions g1) in *. clearbody g2.
  destruct (quiet_updateGameState g2) as (n3 & C3 & N3 & S3 & E3).
  destruct (cleanup_fields (updateGameState g2)) as (C4 & S4 & E4).
  split; [exact Ok1|]. split.
  { rewrite E4, E3. apply Forall_forall. intros e He.
    apply filter_In in He. destruct He as [He _].
    rewrite Forall_forall in Ok2. auto. }
  split; [rewrite S4, S3, S2, S1; reflexivity|].
  exists (n1 ++ n2 ++ n3).
  rewrite C4, C3, C2, C1, S4, S3, !countScore_app, !shownScore_app, N1, N3.
  rewrite <- !app_assoc.
  split; [reflexivity|]. split; [lia|].
  rewrite (shownScore_quiet n1 _ N1), <- S1, R2. apply shownScore_quiet, N3.
Qed.

(** The states the engine reaches keep their enemies well formed, and the
    last [onScoreChange] carries the current score. *)
Lemma reachable_inv g :
  reachable g -> Forall enemy_ok (enemies g) /\ shownScore 0 (calls g) = score g.
Proof.
  induction 1 as [cv|t g Hr [Ok Sh]|a b g Hr [Ok Sh]|g Hr [Ok Sh]].
  - split; [constructor|reflexivity].
  - destruct (update_score t g Ok) as (_ & Ok' & _ & new & C & _ & R).
    split; trivial. rewrite C, shownScore_app, Sh. exact R.
  - split; assumption.
  - split; [constructor|].
    unfold reset, invoke. cbn. rewrite <- !app_assoc.
    unfold shownScore. rewrite fold_left_app. reflexivity.
Qed.

(** C5.  In every state the engine reaches, one tick never lowers the score:
    the score grows by exactly the sum of the point values of the enemies
    whose health went from above 0 to 0 or below during collision resolution
    (200 for a heavy, 150 for a fast, 100 for a basic enemy),
    [onScoreChange] is invoked once for each of them, and the last
    invocation carries the new score.  At each hit: when the hit brings the
    health of the enemy from above 0 to 0 or below, the score grows by the
    points of that enemy and [onScoreChange] is invoked with the new score;
    otherwise neither happens. *)
Theorem score_grows_by_points_of_destroyed_enemies (t : Q) (g : GameEngine) :
  reachable g ->
  let g1 := updateObjects (t - lastTime g) (startTick t g) in
  let g2 := handleCollisions g1 in
  (score g <= score (update t g))%Z /\
  score (update t g) = (score g + destroyedPoints (enemies g1) (enemies g2))%Z /\
  Forall (fun e => enemy_points e = pointsOf (enemy_type e)) (enemies g1) /\
  countScore (callsSince g (update t g)) = destroyedCount (enemies g1) (enemies g2) /\
  shownScore (score g) (callsSince g (update t g)) = score (update t g) /\
  (forall i (e : Enemy) (p : Projectile) (h : GameEngine),
     nth_error (enemies g1) i = Some e ->
     let e' := fst (hitEnemy e (p, h)) in
     let h' := snd (snd (hitEnemy e (p, h))) in
     if destroyed e e'
     then score h' = (score h + pointsOf (enemy_type e))%Z /\
          calls h' = calls h ++ [onScoreChange (score h')]
     else score h' = score h /\ calls h' = calls h).
Proof.
  intros Hr. cbv zeta.
  destruct (reachable_inv g Hr) as [Ok _].
  destruct (update_score t g Ok) as (Ok1 & _ & S & new & C & N & R).
  cbv zeta in *.
  rewrite (callsSince_app _ _ _ C).
  split; [pose proof (destroyedPoints_nonneg _ (enemies
            (handleCollisions (updateObjects (t - lastTime g) (startTick t g)))) Ok1);
          lia|].
  split; [exact S|].
  split; [eapply Forall_impl; [|exact Ok1]; intros e [He _]; exact He|].
  split; [exact N|]. split; [exact R|].
  intros i e p h Hi.
  assert (Oe : enemy_ok e).
  { rewrite Forall_forall in Ok1. apply Ok1. eapply nth_error_In; eauto. }
  pose proof (hitEnemy_spec e p h Oe) as (_ & _ & H). cbv zeta in H.
  destruct Oe as [Hp _]. rewrite <- Hp.
  destruct (destroyed e (fst (hitEnemy e (p, h)))); [|exact H].
  destruct H as [H1 H2]. split; [exact H1|]. rewrite H2, H1. reflexivity.
Qed.

(** ** Cooldowns and integration *)



Section RandomRange.
(** [Math.random] returns a number in [0, 1). *)
Hypothesis random_range : forall n, 0 <= Math_random n /\ Math_random n < 1.














(** *** Integration *)











End RandomRange.


End Engine.

(** ** The collision test *)

(** The overlap test in the words of the specification: the rectangles
    centred at [position], with extents [size], intersect on both axes, with
    strict inequalities on the four edges. *)
Definition overlapsCentered (a b : GameObject) : Prop :=
  x (position a) - x (size a) / 2 < x (position b) + x (size b) / 2 /\
  x (position b) - x (size b) / 2 < x (position a) + x (size a) / 2 /\
  y (position a) - y (size a) / 2 < y (position b) + y (size b) / 2 /\
  y (position b) - y (size b) / 2 < y (position a) + y (size a) / 2.

(** What [checkCollision] tests: the rectangles whose top left corner is
    [position], with extents [size]. *)
Definition overlapsFromCorner (a b : GameObject) : Prop :=
  x (position a) < x (position b) + x (size b) /\
  x (position b) < x (position a) + x (size a) /\
  y (position a) < y (position b) + y (size b) /\
  y (position b) < y (position a) + y (size a).

Lemma checkCollision_true (a b : GameObject) :
  checkCollision a b = true <-> overlapsFromCorner a b.
Proof.
  unfold checkCollision, overlapsFromCorner.
  rewrite !andb_true_iff, !Qltb_lt. tauto.
Qed.

(** A player projectile (4 x 12) at (400, 100) and a basic enemy (30 x 30)
    at (410, 100): drawn centred on their positions, as [render] draws them,
    the projectile lies inside the enemy. *)
Definition shotInsideEnemy : GameObject :=
  mkGameObject (mkVector2D 400 100) (mkVector2D 0 (-400)) (mkVector2D 4 12) true.
Definition enemyAroundShot : GameObject :=
  mkGameObject (mkVector2D 410 100) (mkVector2D 0 80) (mkVector2D 30 30) true.

(** C2 (the code departs from the claim).  The rectangles centred at the two
    positions overlap on both axes, yet [checkCollision] answers false: it
    compares the rectangles that have their corner, not their centre, at
    [position]. *)
Theorem checkCollision_misses_centered_overlap :
  overlapsCentered shotInsideEnemy enemyAroundShot /\
  checkCollision shotInsideEnemy enemyAroundShot = false /\
  checkCollision enemyAroundShot shotInsideEnemy = false.
Proof.
  split; [|split; reflexivity].
  unfold overlapsCentered, shotInsideEnemy, enemyAroundShot. cbn.
  repeat split; reflexivity.
Qed.

(** ** Concrete runs *)

Definition canvas800x600 : Canvas := mkCanvas 800 600.

(** A [Math.sin] for the runs below, none of which depends on it: no
    power-up comes near the player in them. *)
Definition sinIgnored (q : Q) : Q := 0.

Definition randomHalf (n : nat) : Q := 1 # 2.


(** *** Two game-overs in one tick *)

(** A fast enemy is spawned at 0 ms and rams the player at 4750 ms.  A heavy
    enemy spawned at 4750 ms, a basic one spawned at 9025 ms and a fast one
    spawned at 11400 ms all reach the player in the tick at 16150 ms.  The
    draws not listed are 1/2: every enemy is spawned above the player and
    none shoots; the power-ups are spawned at the left edge. *)
Definition randomRams (n : nat) : Q :=
  match n with
  | 5%nat | 48%nat | 66%nat => 0
  | 7%nat => 2 # 3
  | _ => 1 # 2
  end.

Definition ramSession : list DriverCall :=
  [call_update 0; call_update 4750; call_update 9025; call_update 11400;
   call_update 16150].

Lemma ramSession_calls (Math_sin : Q -> Q) :
  filter (fun c => match c with onPowerUpChange _ => false | _ => true end)
    (callsSince (construct canvas800x600)
       (session randomRams Math_sin ramSession (construct canvas800x600))) =
  [onLivesChange 2; onLivesChange 1; onLivesChange 0; onGameOver;
   onLivesChange (-1); onGameOver] /\
  lives (session randomRams Math_sin (firstn 4 ramSession) (construct canvas800x600)) = 2%Z.
Proof. vm_compute. split; reflexivity. Qed.

(** C1 as stated: in every session game-over is invoked at most once. *)
Definition gameOver_at_most_once : Prop :=
  forall (Math_random : nat -> Q) (Math_sin : Q -> Q) (cs : list DriverCall) (cv : Canvas),
    (countGameOver
       (callsSince (construct cv) (session Math_random Math_sin cs (construct cv))) <= 1)%nat.

(** C1, counterexample.  In [ramSession] the three hits of the tick at
    16150 ms take the lives from 2 to -1, and game-over is invoked twice in
    that one tick, at 0 and at -1. *)
Lemma gameOver_twice_in_one_tick : ~ gameOver_at_most_once.
Proof.
  intro H. specialize (H randomRams sinIgnored ramSession canvas800x600).
  vm_compute in H. lia.
Qed.

(** *** A negative deltaTime *)




(** *** One projectile, two enemies *)

(** A heavy enemy is spawned at 0 ms and a fast one at 2000 ms, both at
    x = 390; the player holds shoot, and in the tick at 3030 ms its shot
    reaches (400, 113) while the heavy enemy is at y = 121.5 and the fast one
    at y = 93.6.  The power-up of the first tick is spawned at the left
    edge. *)
Definition randomPair (n : nat) : Q :=
  match n with
  | 0%nat => 2 # 3
  | 7%nat => 1 # 3
  | 1%nat | 8%nat => 37 # 76
  | 5%nat => 0
  | _ => 1 # 2
  end.

Definition pairSession : list DriverCall :=
  [call_update 0; call_update 2000; call_setPlayerInput act_shoot true].

(** The state of the tick at 3030 ms when collision resolution starts. *)
Definition pairBeforeCollisions (Math_sin : Q -> Q) : GameEngine :=
  let g := session randomPair Math_sin pairSession (construct canvas800x600) in
  updateObjects randomPair Math_sin (3030 - lastTime g) (startTick 3030 g).

(** C7 (the code departs from the claim).  In the tick at 3030 ms there is
    one projectile, of the player, and it is active; collision resolution
    deactivates it and takes its damage of 25 off the health of both
    enemies, destroying the fast one: the inner loop over the enemies goes on
    after the projectile has hit. *)
Theorem one_projectile_damages_two_enemies (Math_sin : Q -> Q) :
  let g := pairBeforeCollisions Math_sin in
  map (fun p : Projectile => (owner p, active p)) (projectiles g) =
    [(owner_player, true)] /\
  map (fun e : Enemy => (enemy_type e, active e, enemy_health e)) (enemies g) =
    [(heavy, true, 75%Z); (fast, true, 25%Z)] /\
  map (fun p : Projectile => (owner p, active p))
      (projectiles (handleCollisions randomPair g)) =
    [(owner_player, false)] /\
  map (fun e : Enemy => (enemy_type e, active e, enemy_health e))
      (enemies (handleCollisions randomPair g)) =
    [(heavy, true, 50%Z); (fast, false, 0%Z)] /\
  score (handleCollisions randomPair g) = 150%Z.
Proof. vm_compute. repeat split; reflexivity. Qed.

(** *** Witnesses *)

(** A player with 5000 ms of shield, an enemy projectile inside it and an
    enemy on it. *)
Definition shieldedState : GameEngine :=
  let g := construct canvas800x600 in
  set_projectiles
    [mkProjectile
       (mkGameObject (mkVector2D 410 545) (mkVector2D 0 240) (mkVector2D 3 8) true)
       20 owner_enemy]
    (set_enemies
       [mkEnemy
          (mkGameObject (mkVector2D 405 530) (mkVector2D 0 80) (mkVector2D 30 30) true)
          basic 50 100 0]
       (set_player (player_set_powerUps [(shield, 5000)] (player g)) g)).

(** C4, witness: the shielded state keeps its three lives through collision
    resolution. *)
Lemma shield_witness :
  shielded shieldedState /\
  lives (handleCollisions randomHalf shieldedState) = lives shieldedState.
Proof.
  split; [reflexivity|].
  exact (proj1 (shield_blocks_damage_not_deactivation randomHalf sinIgnored
                  shieldedState eq_refl)).
Defined.

(** The engine after the calls of [pairSession]. *)
Definition pairState : GameEngine :=
  setPlayerInput act_shoot true
    (update randomPair sinIgnored 2000
       (update randomPair sinIgnored 0 (construct canvas800x600))).

(** C5, witness: [pairState] is reached, and the tick at 3030 ms does not
    lower the score. *)
Lemma score_witness :
  reachable randomPair sinIgnored pairState /\
  (score pairState <= score (update randomPair sinIgnored 3030 pairState))%Z.
Proof.
  split; [apply reach_input, reach_update, reach_update, reach_construct|].
  exact (proj1 (score_grows_by_points_of_destroyed_enemies randomPair sinIgnored
                  3030 pairState
                  (reach_input _ _ _ _ _
                     (reach_update _ _ _ _
                        (reach_update _ _ _ _ (reach_construct _ _ _)))))).
Defined.




